(** * react-mindmap: the MindNode parser (src/parser)

    A shallow embedding of the parser script and of its emoji helpers,
    and the properties of the transformation pipeline proved on it.

    JavaScript strings are sequences of UTF-16 code units; they are modelled
    as [list Z], one number in [0, 65535] per code unit, so that a surrogate
    pair is two elements, exactly as [charCodeAt] and the regular expressions
    of the source (which carry no [u] flag) see it. *)

From Stdlib Require Import ZArith List Lia String Ascii Bool.
From stdpp Require Import base option list gmap.

Open Scope Z_scope.

(** ** JavaScript strings *)

Abbreviation jsstring := (list Z).

(** An ASCII literal as a JavaScript string. *)
Fixpoint js (s : string) : jsstring :=
  match s with
  | EmptyString => []
  | String a r => Z.of_N (N_of_ascii a) :: js r
  end.

(** The double quote, which the literals below splice in. *)
Definition dq : jsstring := [34].

(** The code units matched by [\s] (and removed by [trim]): the WhiteSpace
    and LineTerminator productions of ECMAScript. *)
Definition isWhiteSpace (c : Z) : bool :=
  (c =? 9) || (c =? 10) || (c =? 11) || (c =? 12) || (c =? 13) || (c =? 32)
  || (c =? 0xA0) || (c =? 0x1680) || ((0x2000 <=? c) && (c <=? 0x200A))
  || (c =? 0x2028) || (c =? 0x2029) || (c =? 0x202F) || (c =? 0x205F)
  || (c =? 0x3000) || (c =? 0xFEFF).

Fixpoint trimStart (s : jsstring) : jsstring :=
  match s with
  | c :: r => if isWhiteSpace c then trimStart r else s
  | [] => []
  end.

(** [String.prototype.trim]. *)
Definition trim (s : jsstring) : jsstring :=
  rev (trimStart (rev (trimStart s))).

Fixpoint startsWith (pat s : jsstring) : bool :=
  match pat, s with
  | [], _ => true
  | p :: pat', c :: s' => (p =? c) && startsWith pat' s'
  | _ :: _, [] => false
  end.

(** [s.replace(pat, '')] for a string pattern [pat]: the first occurrence of
    [pat] in [s] is removed, the rest of [s] is kept. *)
Fixpoint removeFirst (pat s : jsstring) : jsstring :=
  if startsWith pat s then drop (length pat) s
  else match s with
       | [] => []
       | c :: r => c :: removeFirst pat r
       end.

(** [s.includes(pat)]. *)
Fixpoint includes (pat s : jsstring) : bool :=
  startsWith pat s ||
  match s with
  | [] => false
  | _ :: r => includes pat r
  end.

(** ** 32-bit integer operators and [toString(16)] *)

Definition toInt32 (z : Z) : Z := (z + 2 ^ 31) mod 2 ^ 32 - 2 ^ 31.

(** [a & b] *)
Definition bitand (a b : Z) : Z := toInt32 (Z.land (toInt32 a) (toInt32 b)).

(** [a << n] *)
Definition shl (a n : Z) : Z := toInt32 (Z.shiftl (toInt32 a) (n mod 32)).

Definition hexDigit (d : Z) : Z := if d <? 10 then 48 + d else 87 + d.

Fixpoint toHexAux (fuel : nat) (n : Z) (acc : jsstring) : jsstring :=
  match fuel with
  | O => acc
  | S fuel' =>
      let acc' := hexDigit (n mod 16) :: acc in
      if n / 16 =? 0 then acc' else toHexAux fuel' (n / 16) acc'
  end.

(** [n.toString(16)] for an integer [n]: lowercase digits, no padding. *)
Definition toString16 (n : Z) : jsstring :=
  if n <? 0 then 45 :: toHexAux (S (Z.to_nat (Z.log2 (- n)))) (- n) []
  else toHexAux (S (Z.to_nat (Z.log2 n))) n [].

(** Reading a hexadecimal writing back: the digits [0-9a-f] and the number
    they write. *)
Definition isLowerHex (c : Z) : bool :=
  ((48 <=? c) && (c <=? 57)) || ((97 <=? c) && (c <=? 102)).

Definition hexDigitValue (c : Z) : Z := if c <? 58 then c - 48 else c - 87.

Definition hexValue (s : jsstring) : Z :=
  fold_left (fun acc c => 16 * acc + hexDigitValue c) s 0.

(** ** emojis.js *)

Module Emojis.

Definition emojiTemplate (unicode : jsstring) : jsstring :=
  js "<img class=" ++ dq ++ js "mindmap-emoji" ++ dq ++ js " src=" ++ dq
  ++ js "https://assets-cdn.github.com/images/icons/emoji/unicode/"
  ++ unicode ++ js ".png" ++ dq ++ js ">".

Definition customEmojiTemplate (emoji : jsstring) : jsstring :=
  js "<img class=" ++ dq ++ js "mindmap-emoji" ++ dq ++ js " src=" ++ dq
  ++ js "https://assets-cdn.github.com/images/icons/emoji/"
  ++ emoji ++ js ".png" ++ dq ++ js ">".

(** The two character classes of [matchEmojis]. *)
Definition isLead (c : Z) : bool := (0xD800 <=? c) && (c <=? 0xDBFF).
Definition isTrail (c : Z) : bool := (0xDC00 <=? c) && (c <=? 0xDFFF).

(** [s.match(matchEmojis)]: the regular expression is global, so the result
    is the array of all matches, left to right, or [null] when there is
    none. *)
Fixpoint matchAll (s : jsstring) : list jsstring :=
  match s with
  | hi :: ((lo :: r) as t) =>
      if isLead hi && isTrail lo then [hi; lo] :: matchAll r else matchAll t
  | _ => []
  end.

Definition matchEmojis (s : jsstring) : option (list jsstring) :=
  match matchAll s with
  | [] => None
  | ms => Some ms
  end.

(** What [matchEmojis] looks for, said on the string: a lead surrogate
    right before a trail surrogate. *)
Definition hasSurrogatePair (s : jsstring) : Prop :=
  exists a hi lo b, s = a ++ hi :: lo :: b
                    /\ isLead hi = true /\ isTrail lo = true.

(** [s.replace(matchEmojis, f)] for a replacer function [f]. *)
Fixpoint replaceEmojis (f : jsstring -> jsstring) (s : jsstring) : jsstring :=
  match s with
  | hi :: ((lo :: r) as t) =>
      if isLead hi && isTrail lo then f [hi; lo] ++ replaceEmojis f r
      else hi :: replaceEmojis f t
  | _ => s
  end.

(** [s.replace(matchEmojis, '')]. *)
Definition stripEmojis (s : jsstring) : jsstring := replaceEmojis (fun _ => []) s.

Definition octopus : jsstring := [0xD83D; 0xDC19].
Definition robot : jsstring := [0xD83E; 0xDD16].
Definition cardIndexDividers : jsstring := [0xD83D; 0xDDC2].

Definition jseq (a b : jsstring) : bool := bool_decide (a = b).

(** The replacer of [emojiToHTML]. *)
Definition emojiImage (m : jsstring) : jsstring :=
  if jseq m octopus then customEmojiTemplate (js "octocat")
  else if jseq m robot then
    js "<img class=" ++ dq ++ js "mindmap-emoji reddit-emoji" ++ dq
    ++ js " src=" ++ dq
    ++ js "https://encrypted-tbn0.gstatic.com/images?q=tbn:ANd9GcTNpOQVZdTCyVamjJPl92KjaDHigNWVM8mOLHPRU4DHoVNJWxCg"
    ++ dq ++ js ">"
  else if jseq m cardIndexDividers then
    js "<img class=" ++ dq ++ js "mindmap-emoji" ++ dq ++ js " src=" ++ dq
    ++ js "https://cdn.sstatic.net/Sites/stackoverflow/company/img/logos/se/se-icon.png?v=93426798a1d4"
    ++ dq ++ js ">"
  else
    let lead := bitand (nth 0 m 0) 0x3FF in
    let trail := bitand (nth 1 m 0) 0x3FF in
    let unicode := toString16 (shl lead 10 + trail) in
    emojiTemplate (js "1" ++ unicode).

Definition emojiToHTML (html : jsstring) : jsstring :=
  replaceEmojis emojiImage html.

(** The cases of the [switch], in source order. *)
Definition emojiToCategory (emoji : jsstring) : jsstring :=
  if jseq emoji [0xD83D; 0xDDFA] then js "mindmap"
  else if jseq emoji [0xD83C; 0xDF10] then js "wiki"
  else if jseq emoji [0xD83D; 0xDDC2] then js "stack exchange"
  else if jseq emoji [0xD83D; 0xDCD6] then js "free book"
  else if jseq emoji [0xD83D; 0xDCD5] then js "non-free book"
  else if jseq emoji [0xD83D; 0xDCC4] then js "paper"
  else if jseq emoji [0xD83D; 0xDC40] then js "video"
  else if jseq emoji [0xD83D; 0xDD8B] then js "article"
  else if jseq emoji [0xD83D; 0xDDC3] then js "blog"
  else if jseq emoji [0xD83D; 0xDC19] then js "github"
  else if jseq emoji [0xD83D; 0xDC7E] then js "interactive"
  else if jseq emoji [0xD83D; 0xDD8C] then js "image"
  else if jseq emoji [0xD83C; 0xDF99] then js "podcast"
  else if jseq emoji [0xD83D; 0xDCEE] then js "newsletter"
  else if jseq emoji [0xD83D; 0xDDE3] then js "chat"
  else if jseq emoji [0xD83C; 0xDFA5] then js "youtube"
  else if jseq emoji [0xD83E; 0xDD16] then js "reddit"
  else [].

(** The table of the [switch] as data, in source order. *)
Definition categoryTable : list (jsstring * jsstring) :=
  [ ([0xD83D; 0xDDFA], js "mindmap");
    ([0xD83C; 0xDF10], js "wiki");
    ([0xD83D; 0xDDC2], js "stack exchange");
    ([0xD83D; 0xDCD6], js "free book");
    ([0xD83D; 0xDCD5], js "non-free book");
    ([0xD83D; 0xDCC4], js "paper");
    ([0xD83D; 0xDC40], js "video");
    ([0xD83D; 0xDD8B], js "article");
    ([0xD83D; 0xDDC3], js "blog");
    ([0xD83D; 0xDC19], js "github");
    ([0xD83D; 0xDC7E], js "interactive");
    ([0xD83D; 0xDD8C], js "image");
    ([0xD83C; 0xDF99], js "podcast");
    ([0xD83D; 0xDCEE], js "newsletter");
    ([0xD83D; 0xDDE3], js "chat");
    ([0xD83C; 0xDFA5], js "youtube");
    ([0xD83E; 0xDD16], js "reddit") ].

(** The table as the specification enumerates it: world map, globe, open
    book, closed book, page, eyes, pen, card box, octopus, alien monster,
    paintbrush, microphone, postbox, speaking head, film camera, robot. *)
Definition listedTable : list (jsstring * jsstring) :=
  [ ([0xD83D; 0xDDFA], js "mindmap");
    ([0xD83C; 0xDF10], js "wiki");
    ([0xD83D; 0xDCD6], js "free book");
    ([0xD83D; 0xDCD5], js "non-free book");
    ([0xD83D; 0xDCC4], js "paper");
    ([0xD83D; 0xDC40], js "video");
    ([0xD83D; 0xDD8B], js "article");
    ([0xD83D; 0xDDC3], js "blog");
    ([0xD83D; 0xDC19], js "github");
    ([0xD83D; 0xDC7E], js "interactive");
    ([0xD83D; 0xDD8C], js "image");
    ([0xD83C; 0xDF99], js "podcast");
    ([0xD83D; 0xDCEE], js "newsletter");
    ([0xD83D; 0xDDE3], js "chat");
    ([0xD83C; 0xDFA5], js "youtube");
    ([0xD83E; 0xDD16], js "reddit") ].

(** The first entry of a table under a key. *)
Fixpoint assoc (k : jsstring) (tbl : list (jsstring * jsstring)) : option jsstring :=
  match tbl with
  | [] => None
  | (k', v) :: r => if jseq k k' then Some v else assoc k r
  end.

End Emojis.

(** ** regex.js *)

Module Regex.

(** Modelled from the spec: [getText] of ./regex, which is not among the
    sources; it "strips all markup tags from the field, collapses it to plain
    text". A tag runs from a [<] to the next [>]. *)
Fixpoint stripTags (inTag : bool) (s : jsstring) : jsstring :=
  match s with
  | [] => []
  | c :: r =>
      if inTag then stripTags (negb (c =? 62)) r
      else if c =? 60 then stripTags true r
      else c :: stripTags false r
  end.

Definition getText (richText : jsstring) : jsstring := stripTags false richText.

Fixpoint takeUntil (stop : Z) (s : jsstring) : jsstring :=
  match s with
  | [] => []
  | c :: r => if c =? stop then [] else c :: takeUntil stop r
  end.

(** Modelled from the spec: [getURL] of ./regex, which is not among the
    sources; it "scans the rich text for the first embedded hyperlink target;
    returns it, or empty string if none exists". The target is what stands
    between the quotes of the first [href]. *)
Fixpoint getURL (richText : jsstring) : jsstring :=
  if startsWith (js "href=" ++ dq) richText then takeUntil 34 (drop 6 richText)
  else match richText with
       | [] => []
       | _ :: r => getURL r
       end.

End Regex.


(** ** Exceptions

    The only exception the parser's own code can raise is the [TypeError] of
    a property read on [undefined]. A computation that may throw returns a
    [result]. *)

Inductive jsError : Type := TypeError.

Inductive result (A : Type) : Type :=
| Ok (a : A)
| Throw (e : jsError).

Arguments Ok {A} a.
Arguments Throw {A} e.

#[global] Instance result_ret : MRet result := fun A a => Ok a.
#[global] Instance result_bind : MBind result := fun A B f m =>
  match m with
  | Ok a => f a
  | Throw e => Throw e
  end.

(** [o.f] where [o] may be [undefined]. *)
Definition member {A : Type} (o : option A) : result A :=
  match o with
  | Some a => Ok a
  | None => Throw TypeError
  end.

(** [l.map(f)] for a callback that may throw. *)
Fixpoint mapM {A B : Type} (f : A -> result B) (l : list A) : result (list B) :=
  match l with
  | [] => Ok []
  | a :: l' => b ← f a; bs ← mapM f l'; Ok (b :: bs)
  end.

(** [l.forEach(a => f(a).forEach(b => res.push(b)))]: the records pushed,
    in order. *)
Fixpoint forEachPush {A B : Type} (f : A -> result (list B)) (l : list A)
  : result (list B) :=
  match l with
  | [] => Ok []
  | a :: l' => bs ← f a; rest ← forEachPush f l'; Ok (bs ++ rest)
  end.

(** A string is truthy when it is not empty. *)
Definition truthy (s : jsstring) : bool :=
  match s with
  | [] => false
  | _ :: _ => true
  end.

(** ** The parser script

    [./regex] (the functions [getText] and [getURL]) is not part of the
    sources at hand: the parser is modelled for any two such functions from
    strings to strings. [value] is the type of the JSON values that the
    parser copies without looking into them (coordinates, colours, the title
    of a map).

    A field of the raw format is optional in the model when the parser tests
    for its absence ([note], [shapeStyle], [borderStrokeStyle], the [title]
    of a connection); so is the [title] of a node, which the parser reads
    without a test. The other fields are always there, and a rich text always
    has its [text].

    The two tables of the script, the global [mapsLookup] and the
    [nodesLookup] of a map, are objects used as maps from strings to strings;
    they are [gmap]s of their own properties, and [mapsLookup] is an argument
    of the functions that read it. Their keys are the tokens of the maps and
    the ids of the nodes, which are not names of members of
    [Object.prototype]. *)

Section ParserModel.

Context {value : Type}.
Variable getText : jsstring -> jsstring.
Variable getURL : jsstring -> jsstring.

Record RichText : Type := { rt_text : jsstring }.

Record Point : Type := { x : value; y : value }.

Record StrokeStyle : Type := { color : option value }.

Record ShapeStyle : Type := { borderStrokeStyle : option StrokeStyle }.

#[warnings="-register-all"]
Inductive RawNode : Type := mkRawNode {
  title : option RichText;
  note : option RichText;
  location : Point;
  id : jsstring;
  shapeStyle : option ShapeStyle;
  nodes : list RawNode
}.

(** Induction on a node with the property at hand for all its children. *)
Fixpoint RawNode_forall_ind (P : RawNode -> Prop)
  (step : forall t n loc i st children,
      Forall P children -> P (mkRawNode t n loc i st children))
  (node : RawNode) : P node :=
  match node with
  | mkRawNode t n loc i st children =>
      step t n loc i st children
        ((fix all (l : list RawNode) : Forall P l :=
            match l with
            | [] => @List.Forall_nil _ P
            | c :: l' => @List.Forall_cons _ P c l' (RawNode_forall_ind P step c) (all l')
            end) children)
  end.

Record RawConn : Type := {
  startNodeID : jsstring;
  endNodeID : jsstring;
  conn_title : option RichText;
  wayPointOffset : Point
}.

Record RawMap : Type := {
  map_title : value;
  token : jsstring;
  map_nodes : list RawNode;
  map_connections : list RawConn
}.

(** The parsed records. An [option] field is [None] when the property is
    [undefined]; for [category] and for the [text] of a connection, which
    the parser only ever assigns under a test, [None] is the absent key. *)
Record ParsedNode : Type := {
  text : jsstring;
  pn_note : option jsstring;
  url : option jsstring;
  fx : value;
  fy : value;
  category : option jsstring
}.

Record ParsedSubnode : Type := {
  sn_node : ParsedNode;
  sn_color : option value;
  sn_parent : jsstring
}.

Record ParsedConn : Type := {
  conn_text : option jsstring;
  source : option jsstring;
  target : option jsstring;
  curve : Point
}.

Record ParsedMap : Type := {
  pm_title : value;
  pm_nodes : list ParsedNode;
  pm_subnodes : list ParsedSubnode;
  pm_connections : list ParsedConn
}.

(** [url.match(/\/id\/(\S{40})/)]: the capture group of the leftmost match,
    or [None] for [null]. *)
Fixpoint matchInternalURL (s : jsstring) : option jsstring :=
  let tok := take 40 (drop 4 s) in
  if startsWith (js "/id/") s && (length tok =? 40)%nat
     && forallb (fun c => negb (isWhiteSpace c)) tok
  then Some tok
  else match s with
       | [] => None
       | _ :: r => matchInternalURL r
       end.

(** The phrase removed from notes (two spaces after "way"). *)
Definition boilerplate : jsstring :=
  js "if you think this can be improved in any way  please say".

(** [parseNode]: the object literal ([text0], [note0], [url0] and the
    location), then the rewriting of an internal link, of the note and of the
    text, in the order of the source. *)
Definition parseNode (mapsLookup : gmap jsstring jsstring) (node : RawNode)
  : result ParsedNode :=
  t ← member (title node);
  let text0 := getText (rt_text t) in
  let note0 := match note node with
               | Some n => Some (getText (rt_text n))
               | None => None
               end in
  let url0 := getURL (rt_text t) in
  let url1 := match matchInternalURL url0 with
              | Some tok => mapsLookup !! tok
              | None => Some url0
              end in
  let note1 := match note0 with
               | Some n => if truthy n then Some (removeFirst boilerplate n)
                           else Some n
               | None => None
               end in
  match Emojis.matchEmojis text0 with
  | Some m =>
      Ok {| text := trim (Emojis.stripEmojis text0);
            pn_note := note1; url := url1;
            fx := x (location node); fy := y (location node);
            category := Some (Emojis.emojiToCategory (nth 0 m [])) |}
  | None =>
      Ok {| text := text0;
            pn_note := note1; url := url1;
            fx := x (location node); fy := y (location node);
            category := None |}
  end.

(** [Object.assign({ parent }, subnode)]: the raw subnode with the text of
    its parent added (a raw node has no [parent] of its own to take its
    place). *)
Record FlatSubnode : Type := {
  fs_parent : jsstring;
  fs_node : RawNode
}.

(** The body of the [forEach] callback of [getSubnodesR]: the records that
    one subnode adds to [res]. The inner [fix] is [getSubnodesR] on the
    children of the subnode. *)
Fixpoint getSubnodesR_each (mapsLookup : gmap jsstring jsstring)
  (parent : jsstring) (subnode : RawNode) : result (list FlatSubnode) :=
  p ← parseNode mapsLookup subnode;
  sub ← (fix each_child (l : list RawNode) : result (list FlatSubnode) :=
           match l with
           | [] => Ok []
           | c :: l' =>
               bs ← getSubnodesR_each mapsLookup (text p) c;
               rest ← each_child l';
               Ok (bs ++ rest)
           end) (nodes subnode);
  Ok ({| fs_parent := parent; fs_node := subnode |} :: sub).

Definition getSubnodesR (mapsLookup : gmap jsstring jsstring)
  (subnodes : list RawNode) (parent : jsstring) : result (list FlatSubnode) :=
  forEachPush (getSubnodesR_each mapsLookup parent) subnodes.

Definition getSubnodes (mapsLookup : gmap jsstring jsstring)
  (nodes0 : list RawNode) : result (list FlatSubnode) :=
  forEachPush
    (fun node =>
       p ← parseNode mapsLookup node;
       getSubnodesR mapsLookup (nodes node) (text p))
    nodes0.

Definition parseSubnode (mapsLookup : gmap jsstring jsstring)
  (subnode : FlatSubnode) : result ParsedSubnode :=
  parsedSubnode ← parseNode mapsLookup (fs_node subnode);
  let color0 :=
    match shapeStyle (fs_node subnode) with
    | Some st => match borderStrokeStyle st with
                 | Some b => color b
                 | None => None
                 end
    | None => None
    end in
  Ok {| sn_node := parsedSubnode; sn_color := color0;
        sn_parent := fs_parent subnode |}.

Definition parseConn (conn : RawConn) (lookup : gmap jsstring jsstring)
  : ParsedConn :=
  let parsedConn :=
    {| conn_text := None;
       source := lookup !! startNodeID conn;
       target := lookup !! endNodeID conn;
       curve := {| x := x (wayPointOffset conn); y := y (wayPointOffset conn) |} |} in
  match conn_title conn with
  | Some t =>
      if truthy (rt_text t)
      then {| conn_text := Some (getText (rt_text t));
              source := source parsedConn; target := target parsedConn;
              curve := curve parsedConn |}
      else parsedConn
  | None => parsedConn
  end.

(** *** Pass 1: the table from tokens to paths *)

Definition sentinel : jsstring := js "/learn-anything".

Definition relativeFilePath (inputBasePath filename : jsstring) : jsstring :=
  let relativeFilePath0 :=
    removeFirst (js ".json") (removeFirst inputBasePath filename) in
  if bool_decide (relativeFilePath0 <> sentinel)
  then removeFirst sentinel relativeFilePath0
  else relativeFilePath0.

(** One call of the callback: [mapsLookup[map.token] = relativeFilePath]. *)
Definition pass1_callback (inputBasePath : jsstring)
  (mapsLookup : gmap jsstring jsstring) (file : RawMap * jsstring)
  : gmap jsstring jsstring :=
  <[token (fst file) := relativeFilePath inputBasePath (snd file)]> mapsLookup.

(** The first [walkDir]: the callback on every file the walk yields, starting
    from the empty table. *)
Definition pass1 (inputBasePath : jsstring) (files : list (RawMap * jsstring))
  : gmap jsstring jsstring :=
  fold_left (pass1_callback inputBasePath) files ∅.

(** The path that the specification describes: the base prefix and the
    [.json] suffix are stripped, then the sentinel is removed unless the path
    is the sentinel itself. *)
Definition stripPrefix (pre s : jsstring) : jsstring :=
  if startsWith pre s then drop (length pre) s else s.

Definition stripSuffix (suf s : jsstring) : jsstring :=
  rev (stripPrefix (rev suf) (rev s)).

Definition spec_relativeFilePath (inputBasePath filename : jsstring) : jsstring :=
  let p := stripSuffix (js ".json") (stripPrefix inputBasePath filename) in
  if bool_decide (p <> sentinel) then removeFirst sentinel p else p.

(** *** Pass 2: one parsed map per file *)

(** The table [nodesLookup] after [map.nodes.map(...)]: each node stores its
    parsed text under its id, a later node replacing an earlier one of the
    same id. *)
Definition nodesLookup_of (raw : list RawNode) (parsed : list ParsedNode)
  : gmap jsstring jsstring :=
  fold_left (fun lk np => <[id (fst np) := text (snd np)]> lk)
            (combine raw parsed) ∅.

Definition parseMap (mapsLookup : gmap jsstring jsstring) (map : RawMap)
  : result ParsedMap :=
  parsedNodes ← mapM (parseNode mapsLookup) (map_nodes map);
  let nodesLookup := nodesLookup_of (map_nodes map) parsedNodes in
  flat ← getSubnodes mapsLookup (map_nodes map);
  subnodes ← mapM (parseSubnode mapsLookup) flat;
  let conns := List.map (fun conn => parseConn conn nodesLookup)
                        (map_connections map) in
  Ok {| pm_title := map_title map; pm_nodes := parsedNodes;
        pm_subnodes := subnodes; pm_connections := conns |}.

(** *** The node tree

    What the properties of the flattening speak of: the nodes below a node in
    depth-first pre-order, the size of a tree, the positions of the nodes. *)

(** Every node of the tree has a title. *)
Fixpoint titled (n : RawNode) : bool :=
  bool_decide (title n <> None) && forallb titled (nodes n).

(** The nodes strictly below [n], each child before its own descendants,
    children in their order. *)
Fixpoint descendants (n : RawNode) : list RawNode :=
  flat_map (fun c => c :: descendants c) (nodes n).

Definition preorder (l : list RawNode) : list RawNode :=
  flat_map (fun c => c :: descendants c) l.

(** The number of nodes of a tree, its root included. *)
Fixpoint count_nodes (n : RawNode) : nat :=
  S (list_sum (List.map count_nodes (nodes n))).

Definition total_nodes (l : list RawNode) : nat :=
  list_sum (List.map count_nodes l).

(** The text under which [getSubnodesR] files the children of a node. *)
Definition nodeText (mapsLookup : gmap jsstring jsstring) (n : RawNode) : jsstring :=
  match parseNode mapsLookup n with
  | Ok p => text p
  | Throw _ => []
  end.

(** The records of [getSubnodesR] when no node throws. *)
Fixpoint flat_each (mapsLookup : gmap jsstring jsstring) (parent : jsstring)
  (n : RawNode) : list FlatSubnode :=
  {| fs_parent := parent; fs_node := n |}
  :: flat_map (flat_each mapsLookup (nodeText mapsLookup n)) (nodes n).

Definition flat_below (mapsLookup : gmap jsstring jsstring) (n : RawNode)
  : list FlatSubnode :=
  flat_map (flat_each mapsLookup (nodeText mapsLookup n)) (nodes n).

(** A position is the list of child indices that leads from a forest down to
    a node: [[i]] is the i-th tree of the forest, [i :: p] is position [p]
    among the children of that tree. *)
Fixpoint node_at (l : list RawNode) (p : list nat) : option RawNode :=
  match p with
  | [] => None
  | i :: p' =>
      match l !! i with
      | Some n => match p' with
                  | [] => Some n
                  | _ :: _ => node_at (nodes n) p'
                  end
      | None => None
      end
  end.

(** The positions of the nodes strictly below [n], relative to the forest of
    its children, in pre-order. *)
Fixpoint positions_below (n : RawNode) : list (list nat) :=
  (fix from (i : nat) (l : list RawNode) : list (list nat) :=
     match l with
     | [] => []
     | c :: l' => ([i] :: (cons i <$> positions_below c)) ++ from (S i) l'
     end) 0%nat (nodes n).

(** The positions of all the nodes of the forest [l], whose first tree has
    index [i]. *)
Fixpoint positions_from (i : nat) (l : list RawNode) : list (list nat) :=
  match l with
  | [] => []
  | c :: l' => ([i] :: (cons i <$> positions_below c)) ++ positions_from (S i) l'
  end.

(** The positions of the subnodes of a map, that is of the nodes below its
    top-level nodes, in the order of the traversal. *)
Fixpoint subnode_positions_from (i : nat) (l : list RawNode) : list (list nat) :=
  match l with
  | [] => []
  | n :: l' => (cons i <$> positions_below n) ++ subnode_positions_from (S i) l'
  end.

Definition subnode_positions (l : list RawNode) : list (list nat) :=
  subnode_positions_from 0 l.

(** The record [fs] is the node at position [p] of the forest [l], filed
    under the text of the node right above it, at [removelast p]. *)
Definition filed_under (mapsLookup : gmap jsstring jsstring) (l : list RawNode)
  (p : list nat) (fs : FlatSubnode) : Prop :=
  node_at l p = Some (fs_node fs)
  /\ exists m, node_at l (removelast p) = Some m
               /\ fs_parent fs = nodeText mapsLookup m.

(** In a list of positions, all at depth [d] or below, every position deeper
    than [d] comes after the position right above it. *)
Definition ancestors_first (d : nat) (ps : list (list nat)) : Prop :=
  forall k p, ps !! k = Some p ->
    (d <= length p)%nat
    /\ (length p = d \/ exists j, (j < k)%nat /\ ps !! j = Some (removelast p)).

End ParserModel.

Arguments Point : clear implicits.
Arguments StrokeStyle : clear implicits.
Arguments ShapeStyle : clear implicits.
Arguments RawNode : clear implicits.
Arguments RawConn : clear implicits.
Arguments RawMap : clear implicits.
Arguments ParsedNode : clear implicits.
Arguments ParsedSubnode : clear implicits.
Arguments ParsedConn : clear implicits.
Arguments ParsedMap : clear implicits.
Arguments FlatSubnode : clear implicits.

(** ** Further notions for the properties below *)

(** The code point that a surrogate pair encodes. *)
Definition codePoint (hi lo : Z) : Z :=
  0x10000 + (hi - 0xD800) * 0x400 + (lo - 0xDC00).

(** What the internal-link pattern looks for, said on the string: [/id/]
    right before 40 code units that are not white space. *)
Definition hasInternalToken (s : jsstring) : Prop :=
  exists a tok b, s = a ++ js "/id/" ++ tok ++ b
                  /\ length tok = 40%nat
                  /\ forallb (fun c => negb (isWhiteSpace c)) tok = true.

(** The names of the members of [Object.prototype]. A table that the
    script makes with [{}] inherits them: read under one of these names it
    answers with the inherited member when it has no entry of its own, and an
    assignment under [__proto__] makes no entry. A table is its entries, as
    the [gmap]s above have it, for the keys that are none of these names. *)
Definition objectPrototypeMembers : list jsstring :=
  [ js "constructor"; js "__defineGetter__"; js "__defineSetter__";
    js "hasOwnProperty"; js "__lookupGetter__"; js "__lookupSetter__";
    js "isPrototypeOf"; js "propertyIsEnumerable"; js "toString";
    js "valueOf"; js "__proto__"; js "toLocaleString" ].

(** ** A node as the JSON file gives it

    [parseNode] reads three fields of its argument: [title] and [location]
    without a test, [note] under a test. In a [RawNode] the location is
    there; in the object that [require] returns any of the three may be
    missing, and [parseNode] on such an object is the function below, line
    for line the one above with the read of [node.location.x] made
    explicit. The coordinates themselves are opaque values ([undefined]
    among them), and a rich text has its [text]: what [getText] and [getURL]
    make of [undefined] is theirs to say. *)

Section JsonModel.

Context {value : Type}.
Variable getText : jsstring -> jsstring.
Variable getURL : jsstring -> jsstring.

Record JsonNode : Type := {
  jn_title : option RichText;
  jn_note : option RichText;
  jn_location : option (Point value)
}.

Definition parseNodeJson (mapsLookup : gmap jsstring jsstring) (node : JsonNode)
  : result (ParsedNode value) :=
  t ← member (jn_title node);
  let text0 := getText (rt_text t) in
  let note0 := match jn_note node with
               | Some n => Some (getText (rt_text n))
               | None => None
               end in
  let url0 := getURL (rt_text t) in
  loc ← member (jn_location node);
  let url1 := match matchInternalURL url0 with
              | Some tok => mapsLookup !! tok
              | None => Some url0
              end in
  let note1 := match note0 with
               | Some n => if truthy n then Some (removeFirst boilerplate n)
                           else Some n
               | None => None
               end in
  match Emojis.matchEmojis text0 with
  | Some m =>
      Ok {| text := trim (Emojis.stripEmojis text0);
            pn_note := note1; url := url1;
            fx := x loc; fy := y loc;
            category := Some (Emojis.emojiToCategory (nth 0 m [])) |}
  | None =>
      Ok {| text := text0;
            pn_note := note1; url := url1;
            fx := x loc; fy := y loc;
            category := None |}
  end.

(** The fields that [parseNode] reads of a node of the data model. *)
Definition jsonOf (node : RawNode value) : JsonNode :=
  {| jn_title := title node; jn_note := note node;
     jn_location := Some (location node) |}.

End JsonModel.

Arguments JsonNode : clear implicits.

(** ** Directories: [mkdirs] and the test before its call

    The file system is seen through the two calls of the script,
    [fs.existsSync] and [fs.mkdirSync], on directories only. A path is the
    list of its segments, the innermost first, above a root ([/] for an
    absolute path, [.] for a relative one) that is the empty list and always
    exists: [path.dirname] is the tail of the list, and the root at the
    root. The state is the set of the directories that exist besides the
    root. *)

Module FS.

Abbreviation path := (list jsstring).

Inductive fsError : Type := EEXIST | ENOENT.

Inductive outcome (A : Type) : Type :=
| Done (a : A)
| Fail (e : fsError).

Arguments Done {A} a.
Arguments Fail {A} e.

Definition dirname (p : path) : path := tail p.

Definition existsSync (fs : gset path) (p : path) : bool :=
  bool_decide (p = [] \/ p ∈ fs).

(** [fs.mkdirSync(p)]: refused when [p] exists and when its parent does
    not. *)
Definition mkdirSync (fs : gset path) (p : path) : outcome (gset path) :=
  if existsSync fs p then Fail EEXIST
  else if existsSync fs (dirname p) then Done ({[ p ]} ∪ fs)
  else Fail ENOENT.

(** [mkdirs]; the recursive call is on [parentDir], the tail of the path (at
    the root the parent exists and there is no call). *)
Fixpoint mkdirs (dirname0 : path) (fs : gset path) : outcome (gset path) :=
  let parentDir := dirname dirname0 in
  match (if existsSync fs parentDir then Done fs
         else match dirname0 with
              | _ :: parent => mkdirs parent fs
              | [] => Done fs
              end) with
  | Done fs' => mkdirSync fs' dirname0
  | Fail e => Fail e
  end.

(** [if (!fs.existsSync(outputPath)) { mkdirs(outputPath); }] *)
Definition ensureDir (outputPath : path) (fs : gset path) : outcome (gset path) :=
  if existsSync fs outputPath then Done fs else mkdirs outputPath fs.

(** Every directory of the state has its parent. *)
Definition closed (fs : gset path) : Prop :=
  forall q, q ∈ fs -> existsSync fs (dirname q) = true.

End FS.

(** ** Sample inputs, with integers for the opaque values *)

Module Examples.

Definition origin : Point Z := {| x := 0; y := 0 |}.

Definition tree (titleText : jsstring) (children : list (RawNode Z)) : RawNode Z :=
  mkRawNode (Some {| rt_text := titleText |}) None origin [] None children.

Definition leaf (titleText : jsstring) : RawNode Z := tree titleText [].

Definition noted (titleText noteText : jsstring) : RawNode Z :=
  mkRawNode (Some {| rt_text := titleText |}) (Some {| rt_text := noteText |})
            origin [] None [].

Definition untitled : RawNode Z := mkRawNode None None origin [] None [].

Definition grinningFace : jsstring := [0xD83D; 0xDE00].

Definition token40 : jsstring := js "0123456789abcdef0123456789abcdef01234567".

(** [<a href="https://learn-anything.xyz/id/<token40>">Physics</a>] *)
Definition internalLink : jsstring :=
  js "<a href=" ++ dq ++ js "https://learn-anything.xyz/id/" ++ token40 ++ dq
  ++ js ">Physics</a>".

Definition conn (t : option RichText) : RawConn Z :=
  {| startNodeID := js "n1"; endNodeID := js "n2"; conn_title := t;
     wayPointOffset := {| x := 3; y := -4 |} |}.

Definition doc (tok : jsstring) : RawMap Z :=
  {| map_title := 0; token := tok; map_nodes := []; map_connections := [] |}.

(** The phrase as the specification writes it, with one space after "way". *)
Definition phraseOneSpace : jsstring :=
  js "if you think this can be improved in any way please say".

End Examples.

(** * Properties *)

(** ** Strings *)

Lemma startsWith_app pat s : startsWith pat (pat ++ s) = true.
Proof.
  induction pat as [|p pat IH]; simpl; [reflexivity|].
  rewrite Z.eqb_refl. exact IH.
Qed.

Lemma startsWith_true pat s :
  startsWith pat s = true -> s = pat ++ drop (length pat) s.
Proof.
  revert s. induction pat as [|p pat IH]; intros s H; simpl in *.
  - reflexivity.
  - destruct s as [|c s]; [discriminate|].
    apply andb_prop in H as [Hc Hs]. apply Z.eqb_eq in Hc. subst c.
    simpl. f_equal. apply IH, Hs.
Qed.

Lemma includes_false_startsWith pat s :
  includes pat s = false -> startsWith pat s = false.
Proof.
  destruct s; simpl; intros H; apply orb_false_elim in H; tauto.
Qed.

Lemma includes_false_tail pat c s :
  includes pat (c :: s) = false -> includes pat s = false.
Proof.
  simpl. intros H. apply orb_false_elim in H. tauto.
Qed.

(** A string without the pattern is left as it is. *)
Lemma removeFirst_absent pat s :
  includes pat s = false -> removeFirst pat s = s.
Proof.
  induction s as [|c s IH]; intros H.
  - simpl in *. apply orb_false_elim in H as [-> _]. reflexivity.
  - pose proof (includes_false_startsWith _ _ H) as Hs.
    simpl. simpl in Hs. rewrite Hs. f_equal.
    apply IH. eapply includes_false_tail, H.
Qed.

Lemma removeFirst_eq pat s :
  removeFirst pat s =
  if startsWith pat s then drop (length pat) s
  else match s with
       | [] => []
       | c :: r => c :: removeFirst pat r
       end.
Proof. destruct s; reflexivity. Qed.

(** Whether [p] starts a string is decided by the first [length p] code
    units. *)
Lemma startsWith_prefix p u v w :
  startsWith p (u ++ v) = true -> (length p <= length u)%nat ->
  startsWith p (u ++ w) = true.
Proof.
  revert u. induction p as [|q p IHp]; intros u H1 H2; [reflexivity|].
  destruct u as [|d u]; [simpl in H2; lia|].
  simpl in *. apply andb_prop in H1 as [-> H1]. simpl.
  apply IHp; [exact H1|lia].
Qed.

(** The pattern is removed where it first occurs: when no occurrence starts
    before the end of [a], it is the one after [a] that goes. *)
Lemma removeFirst_first pat a b :
  pat <> [] ->
  includes pat (a ++ removelast pat) = false ->
  removeFirst pat (a ++ pat ++ b) = a ++ b.
Proof.
  intros Hpat. induction a as [|c a IH]; intros H.
  - rewrite !app_nil_l, removeFirst_eq.
    rewrite startsWith_app, drop_app_length. reflexivity.
  - assert (Hs : startsWith pat ((c :: a) ++ pat ++ b) = false).
    { destruct (startsWith pat ((c :: a) ++ pat ++ b)) eqn:E; [|reflexivity].
      apply includes_false_startsWith in H.
      rewrite (app_removelast_last 0 Hpat) in E at 2.
      rewrite <- app_assoc, app_assoc in E.
      apply (startsWith_prefix _ _ _ []) in E.
      + rewrite app_nil_r in E. congruence.
      + rewrite (app_removelast_last 0 Hpat) at 1.
        rewrite !length_app. simpl. lia. }
    rewrite removeFirst_eq, Hs. simpl. f_equal. apply IH.
    eapply includes_false_tail. exact H.
Qed.

(** [trim] removes white space at both ends and nothing else. *)
Lemma trimStart_spec s :
  exists l, s = l ++ trimStart s
            /\ forallb isWhiteSpace l = true
            /\ (forall c r, trimStart s = c :: r -> isWhiteSpace c = false).
Proof.
  induction s as [|c s (l & E & Hl & Hh)].
  - exists []. repeat split. intros c r H. discriminate.
  - cbn [trimStart]. destruct (isWhiteSpace c) eqn:Hc.
    + exists (c :: l). rewrite E at 1. repeat split.
      * cbn [forallb]. rewrite Hc, Hl. reflexivity.
      * exact Hh.
    + exists []. repeat split. intros c' r H. injection H as <- _. exact Hc.
Qed.

Lemma trim_spec s :
  exists l r, s = l ++ trim s ++ r
              /\ forallb isWhiteSpace l = true /\ forallb isWhiteSpace r = true
              /\ (forall c t, trim s = c :: t -> isWhiteSpace c = false)
              /\ (forall c t, trim s = t ++ [c] -> isWhiteSpace c = false).
Proof.
  destruct (trimStart_spec s) as (l & El & Hl & Hhead).
  destruct (trimStart_spec (rev (trimStart s))) as (r & Er & Hr & Hlast).
  assert (E : trimStart s = trim s ++ rev r).
  { unfold trim. rewrite <- rev_app_distr, <- Er. symmetry. apply rev_involutive. }
  exists l, (rev r). split; [rewrite <- E; exact El|].
  split; [exact Hl|]. split.
  { rewrite forallb_forall in *. intros c Hc. apply Hr, in_rev, Hc. }
  split.
  - intros c t Ht. rewrite Ht in E. apply (Hhead c (t ++ rev r)). exact E.
  - intros c t Ht. unfold trim in Ht.
    apply (f_equal (@rev Z)) in Ht. rewrite rev_involutive, rev_app_distr in Ht.
    apply (Hlast c (rev t)). exact Ht.
Qed.

(** ** emojis.js *)

Lemma lead_not_trail c : Emojis.isLead c = true -> Emojis.isTrail c = false.
Proof.
  unfold Emojis.isLead, Emojis.isTrail. intros H.
  apply andb_prop in H as [H1 H2]. apply Z.leb_le in H1, H2.
  apply andb_false_iff. left. apply Z.leb_gt. lia.
Qed.

Lemma replaceEmojis_cons2 f hi lo r :
  Emojis.replaceEmojis f (hi :: lo :: r) =
  if Emojis.isLead hi && Emojis.isTrail lo
  then f [hi; lo] ++ Emojis.replaceEmojis f r
  else hi :: Emojis.replaceEmojis f (lo :: r).
Proof. reflexivity. Qed.

Lemma matchAll_cons2 hi lo r :
  Emojis.matchAll (hi :: lo :: r) =
  if Emojis.isLead hi && Emojis.isTrail lo
  then [hi; lo] :: Emojis.matchAll r
  else Emojis.matchAll (lo :: r).
Proof. reflexivity. Qed.

(** The scan is compositional around a surrogate pair: whatever stands
    before the pair cannot take one of its two code units into a match. *)
Lemma replaceEmojis_app_pair f pre hi lo post :
  Emojis.isLead hi = true -> Emojis.isTrail lo = true ->
  Emojis.replaceEmojis f (pre ++ hi :: lo :: post) =
  Emojis.replaceEmojis f pre ++ f [hi; lo] ++ Emojis.replaceEmojis f post.
Proof.
  intros Hhi Hlo.
  remember (length pre) as n eqn:Hn. revert pre Hn.
  induction n as [n IH] using lt_wf_ind. intros pre Hn.
  destruct pre as [|a [|b pre]].
  - rewrite app_nil_l, replaceEmojis_cons2, Hhi, Hlo. reflexivity.
  - change ([a] ++ hi :: lo :: post) with (a :: hi :: lo :: post).
    rewrite replaceEmojis_cons2, (lead_not_trail _ Hhi), andb_false_r.
    rewrite replaceEmojis_cons2, Hhi, Hlo. reflexivity.
  - change ((a :: b :: pre) ++ hi :: lo :: post)
      with (a :: b :: (pre ++ hi :: lo :: post)).
    rewrite !(replaceEmojis_cons2 f a b).
    destruct (Emojis.isLead a && Emojis.isTrail b).
    + rewrite (IH (length pre)); [|simpl in Hn; lia|reflexivity].
      rewrite <- app_assoc. reflexivity.
    + change (b :: pre ++ hi :: lo :: post) with ((b :: pre) ++ hi :: lo :: post).
      rewrite (IH (length (b :: pre))); [|simpl in *; lia|reflexivity].
      reflexivity.
Qed.

Lemma matchAll_app_pair pre hi lo post :
  Emojis.isLead hi = true -> Emojis.isTrail lo = true ->
  Emojis.matchAll (pre ++ hi :: lo :: post) =
  Emojis.matchAll pre ++ [hi; lo] :: Emojis.matchAll post.
Proof.
  intros Hhi Hlo.
  remember (length pre) as n eqn:Hn. revert pre Hn.
  induction n as [n IH] using lt_wf_ind. intros pre Hn.
  destruct pre as [|a [|b pre]].
  - rewrite app_nil_l, matchAll_cons2, Hhi, Hlo. reflexivity.
  - change ([a] ++ hi :: lo :: post) with (a :: hi :: lo :: post).
    rewrite matchAll_cons2, (lead_not_trail _ Hhi), andb_false_r.
    rewrite matchAll_cons2, Hhi, Hlo. reflexivity.
  - change ((a :: b :: pre) ++ hi :: lo :: post)
      with (a :: b :: (pre ++ hi :: lo :: post)).
    rewrite !(matchAll_cons2 a b).
    destruct (Emojis.isLead a && Emojis.isTrail b).
    + rewrite (IH (length pre)); [|simpl in Hn; lia|reflexivity].
      reflexivity.
    + change (b :: pre ++ hi :: lo :: post) with ((b :: pre) ++ hi :: lo :: post).
      rewrite (IH (length (b :: pre))); [|simpl in *; lia|reflexivity].
      reflexivity.
Qed.

(** A string has a match exactly when a lead surrogate stands right before a
    trail surrogate somewhere in it. *)
Lemma matchAll_nonempty s :
  Emojis.matchAll s <> [] <->
  exists a hi lo b, s = a ++ hi :: lo :: b
                    /\ Emojis.isLead hi = true /\ Emojis.isTrail lo = true.
Proof.
  split.
  - remember (length s) as n eqn:Hn. revert s Hn.
    induction n as [n IH] using lt_wf_ind. intros s Hn H.
    destruct s as [|hi [|lo r]];
      [exfalso; apply H; reflexivity|exfalso; apply H; reflexivity|].
    rewrite matchAll_cons2 in H.
    destruct (Emojis.isLead hi && Emojis.isTrail lo) eqn:E.
    + apply andb_prop in E as [E1 E2]. exists [], hi, lo, r. auto.
    + destruct (IH (length (lo :: r))) with (s := lo :: r)
        as (a & h & l & b & Hs & Hh & Hl); [simpl in *; lia|reflexivity|exact H|].
      exists (hi :: a), h, l, b. rewrite Hs. auto.
  - intros (a & hi & lo & b & -> & Hh & Hl).
    rewrite matchAll_app_pair by assumption.
    destruct (Emojis.matchAll a); discriminate.
Qed.

(** On code units the 32-bit operators of [emojiToHTML] do not wrap. *)
Lemma toInt32_small z : - 2 ^ 31 <= z < 2 ^ 31 -> toInt32 z = z.
Proof. intros H. unfold toInt32. rewrite Z.mod_small; lia. Qed.

Lemma bitand_3FF c : 0 <= c < 65536 -> bitand c 0x3FF = Z.land c 0x3FF.
Proof.
  intros H. unfold bitand.
  rewrite (toInt32_small c), (toInt32_small 0x3FF) by lia.
  apply toInt32_small.
  change 0x3FF with (Z.ones 10). rewrite Z.land_ones by lia.
  pose proof (Z.mod_pos_bound c (2 ^ 10)). lia.
Qed.

Lemma shl_10 z : 0 <= z < 1024 -> shl z 10 = Z.shiftl z 10.
Proof.
  intros H. unfold shl. rewrite (toInt32_small z) by lia.
  change (10 mod 32) with 10. apply toInt32_small.
  rewrite Z.shiftl_mul_pow2 by lia. lia.
Qed.

Lemma land_3FF_range c : 0 <= Z.land c 0x3FF < 1024.
Proof.
  change 0x3FF with (Z.ones 10). rewrite Z.land_ones by lia.
  apply Z.mod_pos_bound. lia.
Qed.

Lemma isLead_range c : Emojis.isLead c = true -> 0 <= c < 65536.
Proof.
  unfold Emojis.isLead. intros H. apply andb_prop in H as [H1 H2].
  apply Z.leb_le in H1, H2. lia.
Qed.

Lemma isTrail_range c : Emojis.isTrail c = true -> 0 <= c < 65536.
Proof.
  unfold Emojis.isTrail. intros H. apply andb_prop in H as [H1 H2].
  apply Z.leb_le in H1, H2. lia.
Qed.

(** [toString16] writes a natural number with the digits [0-9a-f], and the
    digits write that number. *)
Lemma hexDigit_spec d :
  0 <= d < 16 -> isLowerHex (hexDigit d) = true /\ hexDigitValue (hexDigit d) = d.
Proof.
  intros H. unfold isLowerHex, hexDigit, hexDigitValue.
  destruct (d <? 10) eqn:E.
  - apply Z.ltb_lt in E. split.
    + apply orb_true_iff. left. apply andb_true_iff. split; apply Z.leb_le; lia.
    + replace (48 + d <? 58) with true by (symmetry; apply Z.ltb_lt; lia). lia.
  - apply Z.ltb_ge in E. split.
    + apply orb_true_iff. right. apply andb_true_iff. split; apply Z.leb_le; lia.
    + replace (87 + d <? 58) with false by (symmetry; apply Z.ltb_ge; lia). lia.
Qed.

Lemma toHexAux_spec fuel :
  forall n acc, 0 <= n < 16 ^ Z.of_nat fuel ->
    exists d, toHexAux fuel n acc = d ++ acc
              /\ forallb isLowerHex d = true /\ hexValue d = n.
Proof.
  induction fuel as [|fuel IH]; intros n acc Hn.
  - exists []. change (16 ^ Z.of_nat 0) with 1 in Hn.
    repeat split; try reflexivity. unfold hexValue. cbn [fold_left]. lia.
  - assert (Hd : 0 <= n mod 16 < 16) by (apply Z.mod_pos_bound; lia).
    destruct (hexDigit_spec _ Hd) as [Hhex Hval].
    pose proof (Z.div_mod n 16 ltac:(lia)) as Hdm.
    cbn [toHexAux]. destruct (n / 16 =? 0) eqn:E.
    + apply Z.eqb_eq in E. exists [hexDigit (n mod 16)].
      split; [reflexivity|]. split; [cbn [forallb]; rewrite Hhex; reflexivity|].
      unfold hexValue. cbn [fold_left]. lia.
    + destruct (IH (n / 16) (hexDigit (n mod 16) :: acc)) as (d & Hd1 & Hd2 & Hd3).
      { split; [apply Z.div_pos; lia|].
        apply Z.div_lt_upper_bound; [lia|].
        rewrite Nat2Z.inj_succ, Z.pow_succ_r in Hn by lia. lia. }
      exists (d ++ [hexDigit (n mod 16)]). split.
      * rewrite Hd1, <- app_assoc. reflexivity.
      * split.
        -- rewrite forallb_app, Hd2. cbn [forallb]. rewrite Hhex. reflexivity.
        -- unfold hexValue in *. rewrite fold_left_app, Hd3. cbn [fold_left]. lia.
Qed.

Lemma toString16_spec n :
  0 <= n ->
  forallb isLowerHex (toString16 n) = true /\ hexValue (toString16 n) = n.
Proof.
  intros Hn. unfold toString16.
  replace (n <? 0) with false by (symmetry; apply Z.ltb_ge; lia).
  destruct (toHexAux_spec (S (Z.to_nat (Z.log2 n))) n []) as (d & Hd1 & Hd2 & Hd3).
  - split; [lia|].
    rewrite Nat2Z.inj_succ, Z2Nat.id by apply Z.log2_nonneg.
    destruct (Z.eq_dec n 0) as [->|Hne]; [reflexivity|].
    apply Z.lt_le_trans with (2 ^ Z.succ (Z.log2 n)).
    + apply Z.log2_spec. lia.
    + apply Z.pow_le_mono_l. pose proof (Z.log2_nonneg n). lia.
  - rewrite Hd1, app_nil_r. auto.
Qed.

(** The image of an emoji that is not one of the three special cases. *)
Lemma emojiImage_generic hi lo :
  Emojis.isLead hi = true -> Emojis.isTrail lo = true ->
  [hi; lo] <> Emojis.octopus -> [hi; lo] <> Emojis.robot ->
  [hi; lo] <> Emojis.cardIndexDividers ->
  Emojis.emojiImage [hi; lo] =
  Emojis.emojiTemplate
    (js "1" ++ toString16 (Z.shiftl (Z.land hi 0x3FF) 10 + Z.land lo 0x3FF)).
Proof.
  intros Hhi Hlo H1 H2 H3. unfold Emojis.emojiImage, Emojis.jseq.
  rewrite !bool_decide_eq_false_2 by assumption.
  cbn [nth].
  rewrite (bitand_3FF hi) by (apply isLead_range, Hhi).
  rewrite (bitand_3FF lo) by (apply isTrail_range, Hlo).
  rewrite shl_10 by apply land_3FF_range.
  reflexivity.
Qed.

(** C10: in any input of [emojiToHTML], a surrogate pair [hi lo] other than
    the octopus, the robot and the card index dividers is replaced with the
    tag [<img class="mindmap-emoji" src="...">] whose source is the
    address of the unicode icons followed by the file name, "1" and the
    lowercase hexadecimal writing of [((hi & 0x3FF) << 10) + (lo & 0x3FF)],
    digits [0-9a-f] that write that number, and by [.png]; what stands before
    and after the pair is converted on its own. *)
Theorem emojiToHTML_surrogate_pair (pre post : jsstring) (hi lo : Z) :
  Emojis.isLead hi = true -> Emojis.isTrail lo = true ->
  [hi; lo] <> Emojis.octopus -> [hi; lo] <> Emojis.robot ->
  [hi; lo] <> Emojis.cardIndexDividers ->
  Emojis.emojiToHTML (pre ++ [hi; lo] ++ post) =
  Emojis.emojiToHTML pre
  ++ (js "<img class=" ++ dq ++ js "mindmap-emoji" ++ dq ++ js " src=" ++ dq
      ++ js "https://assets-cdn.github.com/images/icons/emoji/unicode/"
      ++ (js "1"
          ++ toString16 (Z.shiftl (Z.land hi 0x3FF) 10 + Z.land lo 0x3FF))
      ++ js ".png" ++ dq ++ js ">")
  ++ Emojis.emojiToHTML post
  /\ forallb isLowerHex
       (toString16 (Z.shiftl (Z.land hi 0x3FF) 10 + Z.land lo 0x3FF)) = true
  /\ hexValue (toString16 (Z.shiftl (Z.land hi 0x3FF) 10 + Z.land lo 0x3FF))
     = Z.shiftl (Z.land hi 0x3FF) 10 + Z.land lo 0x3FF.
Proof.
  intros Hhi Hlo H1 H2 H3. split.
  - unfold Emojis.emojiToHTML.
    change ([hi; lo] ++ post) with (hi :: lo :: post).
    rewrite replaceEmojis_app_pair by assumption.
    rewrite emojiImage_generic by assumption. reflexivity.
  - apply toString16_spec.
    pose proof (land_3FF_range hi). pose proof (land_3FF_range lo).
    rewrite Z.shiftl_mul_pow2 by lia. lia.
Qed.

(** C9 (as amended): [emojiToCategory] is the lookup in a table of 17
    entries with pairwise distinct keys, the 16 entries that the
    specification lists and, third in the [switch], the card index dividers
    for "stack exchange"; an emoji outside the 17 gives the empty string. *)
Theorem emojiToCategory_table :
  length Emojis.categoryTable = 17%nat
  /\ NoDup (List.map fst Emojis.categoryTable)
  /\ Emojis.categoryTable =
       take 2 Emojis.listedTable
       ++ (Emojis.cardIndexDividers, js "stack exchange")
       :: drop 2 Emojis.listedTable
  /\ forall emoji : jsstring,
       Emojis.emojiToCategory emoji =
       default [] (Emojis.assoc emoji Emojis.categoryTable).
Proof.
  split; [reflexivity|]. split.
  - apply (bool_decide_unpack _). vm_compute. reflexivity.
  - split; [reflexivity|]. intros emoji.
    unfold Emojis.emojiToCategory, Emojis.categoryTable. cbn [Emojis.assoc].
    repeat (destruct (Emojis.jseq emoji _); [reflexivity|]).
    reflexivity.
Qed.

Lemma stripEmojis_app_pair pre hi lo post :
  Emojis.isLead hi = true -> Emojis.isTrail lo = true ->
  Emojis.stripEmojis (pre ++ hi :: lo :: post) =
  Emojis.stripEmojis pre ++ Emojis.stripEmojis post.
Proof.
  intros Hhi Hlo. unfold Emojis.stripEmojis.
  rewrite replaceEmojis_app_pair by assumption. reflexivity.
Qed.

Lemma matchAll_empty_iff s :
  Emojis.matchAll s = [] <-> ~ Emojis.hasSurrogatePair s.
Proof.
  split.
  - intros H Hp. apply matchAll_nonempty in Hp. congruence.
  - intros H. destruct (Emojis.matchAll s) eqn:E; [reflexivity|].
    exfalso. apply H, matchAll_nonempty. rewrite E. discriminate.
Qed.

(** A string without a surrogate pair goes through the replacement as it
    is. *)
Lemma replaceEmojis_no_match f s :
  Emojis.matchAll s = [] -> Emojis.replaceEmojis f s = s.
Proof.
  remember (length s) as n eqn:Hn. revert s Hn.
  induction n as [n IH] using lt_wf_ind. intros s Hn H.
  destruct s as [|hi [|lo r]]; [reflexivity|reflexivity|].
  rewrite matchAll_cons2 in H. rewrite replaceEmojis_cons2.
  destruct (Emojis.isLead hi && Emojis.isTrail lo); [discriminate|].
  f_equal. apply (IH (length (lo :: r))); [simpl in *; lia|reflexivity|exact H].
Qed.

(** ** The parser *)

Section ParserProperties.

Context {value : Type}.
Variable getText : jsstring -> jsstring.
Variable getURL : jsstring -> jsstring.

(** What [parseNode] returns for a node with a title, field by field. *)
Lemma parseNode_titled (lk : gmap jsstring jsstring) (node : RawNode value) t :
  title node = Some t ->
  exists p, parseNode getText getURL lk node = Ok p
    /\ text p = match Emojis.matchAll (getText (rt_text t)) with
                | [] => getText (rt_text t)
                | _ :: _ => trim (Emojis.stripEmojis (getText (rt_text t)))
                end
    /\ category p = match Emojis.matchAll (getText (rt_text t)) with
                    | [] => None
                    | m :: _ => Some (Emojis.emojiToCategory m)
                    end
    /\ pn_note p = match note node with
                   | Some n => Some (removeFirst boilerplate (getText (rt_text n)))
                   | None => None
                   end
    /\ url p = match matchInternalURL (getURL (rt_text t)) with
               | Some tok => lk !! tok
               | None => Some (getURL (rt_text t))
               end
    /\ fx p = x (location node) /\ fy p = y (location node).
Proof.
  intros Ht. unfold parseNode. rewrite Ht. cbn [member mbind result_bind].
  assert (Hn : match note node with
               | Some n => if truthy (getText (rt_text n))
                           then Some (removeFirst boilerplate (getText (rt_text n)))
                           else Some (getText (rt_text n))
               | None => None
               end
               = match note node with
                 | Some n => Some (removeFirst boilerplate (getText (rt_text n)))
                 | None => None
                 end).
  { destruct (note node) as [n|]; [|reflexivity].
    destruct (getText (rt_text n)); reflexivity. }
  unfold Emojis.matchEmojis.
  destruct (note node) as [n|];
  destruct (Emojis.matchAll (getText (rt_text t))) as [|m ms];
    eexists; (split; [reflexivity|]); cbn [text category pn_note url fx fy nth];
    repeat split; try reflexivity; try exact Hn.
Qed.

Lemma parseNode_untitled (lk : gmap jsstring jsstring) (node : RawNode value) :
  title node = None -> parseNode getText getURL lk node = Throw TypeError.
Proof. intros Ht. unfold parseNode. rewrite Ht. reflexivity. Qed.

(** C1 (as amended): for a node with a title, [parseNode] sets [category]
    and rewrites [text] exactly when the extracted text holds a surrogate
    pair, whether the table knows it or not: [category] is then
    [emojiToCategory] of the first pair (the empty string for a pair outside
    the table) and [text] is the extracted text without any of its pairs,
    trimmed at both ends. Without a surrogate pair there is no [category]
    and [text] is the extracted text. *)
Theorem parseNode_category (lk : gmap jsstring jsstring) (node : RawNode value)
    (t : RichText) :
  title node = Some t ->
  exists p, parseNode getText getURL lk node = Ok p
    /\ (~ Emojis.hasSurrogatePair (getText (rt_text t)) ->
        category p = None /\ text p = getText (rt_text t))
    /\ (forall a hi lo b,
          getText (rt_text t) = a ++ hi :: lo :: b ->
          Emojis.isLead hi = true -> Emojis.isTrail lo = true ->
          ~ Emojis.hasSurrogatePair a ->
          category p = Some (Emojis.emojiToCategory [hi; lo])
          /\ text p = trim (a ++ Emojis.stripEmojis b)).
Proof.
  intros Ht.
  destruct (parseNode_titled lk node t Ht) as (p & Hp & Htext & Hcat & _).
  exists p. split; [exact Hp|]. split.
  - intros Hno. apply matchAll_empty_iff in Hno.
    rewrite Hno in Htext, Hcat. auto.
  - intros a hi lo b HT Hhi Hlo Ha. apply matchAll_empty_iff in Ha.
    rewrite HT in Htext, Hcat.
    rewrite matchAll_app_pair, Ha in Htext, Hcat by assumption.
    cbn [app] in Htext, Hcat.
    rewrite stripEmojis_app_pair in Htext by assumption.
    unfold Emojis.stripEmojis in Htext at 1.
    rewrite replaceEmojis_no_match in Htext by exact Ha.
    auto.
Qed.

(** On the fields of a node of the data model, [parseNodeJson] is
    [parseNode]. *)
Lemma parseNodeJson_jsonOf (lk : gmap jsstring jsstring) (node : RawNode value) :
  parseNodeJson getText getURL lk (jsonOf node) = parseNode getText getURL lk node.
Proof.
  unfold parseNodeJson, parseNode, jsonOf. cbn [jn_title jn_note jn_location].
  destruct (title node) as [t|]; reflexivity.
Qed.

(** C7 (as amended): [parseNode] reads [node.title.text] and
    [node.location.x] without a test: a node without a title or without a
    location raises a [TypeError]. A node that has both is parsed whether it
    has a note or not, as the node of the data model with these fields is,
    and an absent note is the [undefined] note of the result. *)
Theorem parseNode_missing_fields (lk : gmap jsstring jsstring)
    (node : JsonNode value) :
  (jn_title node = None -> parseNodeJson getText getURL lk node = Throw TypeError)
  /\ (jn_location node = None ->
      parseNodeJson getText getURL lk node = Throw TypeError)
  /\ (forall t loc, jn_title node = Some t -> jn_location node = Some loc ->
        exists p, parseNodeJson getText getURL lk node = Ok p
          /\ (forall i st children,
                parseNode getText getURL lk
                  (mkRawNode (Some t) (jn_note node) loc i st children) = Ok p)
          /\ (jn_note node = None -> pn_note p = None)
          /\ (forall n, jn_note node = Some n ->
                pn_note p = Some (removeFirst boilerplate (getText (rt_text n))))
          /\ fx p = x loc /\ fy p = y loc).
Proof.
  split; [|split].
  - intros Ht. unfold parseNodeJson. rewrite Ht. reflexivity.
  - intros Hl. unfold parseNodeJson. rewrite Hl.
    destruct (jn_title node); reflexivity.
  - intros t loc Ht Hl.
    destruct (parseNode_titled lk (mkRawNode (Some t) (jn_note node) loc [] None [])
                t eq_refl) as (p & Hp & _ & _ & Hnote & _ & Hx & Hy).
    cbn [note location] in Hnote, Hx, Hy.
    assert (E : forall i st children,
               parseNode getText getURL lk
                 (mkRawNode (Some t) (jn_note node) loc i st children)
               = parseNodeJson getText getURL lk node).
    { intros i st children. rewrite <- parseNodeJson_jsonOf.
      unfold jsonOf. cbn [title note location].
      destruct node as [jt jn jl]. cbn [jn_title jn_note jn_location] in *.
      subst jt jl. reflexivity. }
    exists p. split; [rewrite <- (E [] None []); exact Hp|].
    split; [intros i st children; rewrite E, <- (E [] None []); exact Hp|].
    split; [intros Hn; rewrite Hn in Hnote; exact Hnote|].
    split; [intros n Hn; rewrite Hn in Hnote; exact Hnote|].
    split; assumption.
Qed.

(** What a match of the internal-link pattern is: the token is 40 code
    units long, none of them white space, and follows [/id/]. *)
Lemma matchInternalURL_Some s tok :
  matchInternalURL s = Some tok ->
  length tok = 40%nat
  /\ forallb (fun c => negb (isWhiteSpace c)) tok = true
  /\ exists a b, s = a ++ js "/id/" ++ tok ++ b.
Proof.
  induction s as [|c s IH].
  - cbn. discriminate.
  - intros H.
    assert (E : matchInternalURL (c :: s) =
                if startsWith (js "/id/") (c :: s)
                   && (length (take 40 (drop 4 (c :: s))) =? 40)%nat
                   && forallb (fun c => negb (isWhiteSpace c))
                              (take 40 (drop 4 (c :: s)))
                then Some (take 40 (drop 4 (c :: s)))
                else matchInternalURL s) by reflexivity.
    rewrite E in H. clear E.
    destruct (startsWith (js "/id/") (c :: s)) eqn:E1; cbn [andb] in H.
    2:{ destruct (IH H) as (Hl & Hw & a & b & ->).
        repeat split; try assumption. exists (c :: a), b. reflexivity. }
    destruct (length (take 40 (drop 4 (c :: s))) =? 40)%nat eqn:E2; cbn [andb] in H.
    2:{ destruct (IH H) as (Hl & Hw & a & b & ->).
        repeat split; try assumption. exists (c :: a), b. reflexivity. }
    destruct (forallb (fun c => negb (isWhiteSpace c)) (take 40 (drop 4 (c :: s)))) eqn:E3.
    2:{ destruct (IH H) as (Hl & Hw & a & b & ->).
        repeat split; try assumption. exists (c :: a), b. reflexivity. }
    injection H as <-. apply Nat.eqb_eq in E2.
    repeat split; try assumption.
    exists [], (drop 40 (drop 4 (c :: s))).
    rewrite take_drop. apply startsWith_true in E1. exact E1.
Qed.

(** C5: when the URL extracted from the title of a node matches the
    internal-link pattern and the token is not in the link table,
    [parseNode] returns a node (it does not throw) whose [url] is
    [undefined]. *)
Theorem parseNode_unknown_token (lk : gmap jsstring jsstring)
    (node : RawNode value) (t : RichText) (tok : jsstring) :
  title node = Some t ->
  matchInternalURL (getURL (rt_text t)) = Some tok ->
  lk !! tok = None ->
  exists p, parseNode getText getURL lk node = Ok p /\ url p = None.
Proof.
  intros Ht Hm Hlk.
  destruct (parseNode_titled lk node t Ht) as (p & Hp & _ & _ & _ & Hurl & _).
  exists p. split; [exact Hp|]. rewrite Hurl, Hm. exact Hlk.
Qed.

(** C6 (as amended): the note of the result is the extracted note without
    the first occurrence of the phrase "if you think this can be improved in
    any way  please say", written with two spaces after "way": a note
    [a ++ phrase ++ b] in which no occurrence starts earlier becomes
    [a ++ b], and a note without the phrase is kept as it is. *)
Theorem parseNode_note_boilerplate (lk : gmap jsstring jsstring)
    (node : RawNode value) (t n : RichText) :
  title node = Some t -> note node = Some n ->
  exists p, parseNode getText getURL lk node = Ok p
    /\ pn_note p = Some (removeFirst boilerplate (getText (rt_text n)))
    /\ (includes boilerplate (getText (rt_text n)) = false ->
        pn_note p = Some (getText (rt_text n)))
    /\ (forall a b,
          getText (rt_text n) = a ++ boilerplate ++ b ->
          includes boilerplate (a ++ removelast boilerplate) = false ->
          pn_note p = Some (a ++ b)).
Proof.
  intros Ht Hn.
  destruct (parseNode_titled lk node t Ht) as (p & Hp & _ & _ & Hnote & _).
  rewrite Hn in Hnote.
  exists p. split; [exact Hp|]. split; [exact Hnote|]. split.
  - intros H. rewrite Hnote, removeFirst_absent by exact H. reflexivity.
  - intros a b E H. rewrite Hnote, E, removeFirst_first; [reflexivity| |exact H].
    discriminate.
Qed.

(** C8 (as amended): a connection without a title, or whose title has an
    empty text, is parsed into a connection without [text]; a title with a
    non-empty text gives the extracted text; in all cases [curve] is the
    waypoint offset. *)
Theorem parseConn_text_curve (conn : RawConn value) (lookup : gmap jsstring jsstring) :
  (conn_title conn = None -> conn_text (parseConn getText conn lookup) = None)
  /\ (forall t, conn_title conn = Some t -> rt_text t = [] ->
        conn_text (parseConn getText conn lookup) = None)
  /\ (forall t, conn_title conn = Some t -> rt_text t <> [] ->
        conn_text (parseConn getText conn lookup) = Some (getText (rt_text t)))
  /\ curve (parseConn getText conn lookup) = wayPointOffset conn.
Proof.
  unfold parseConn. repeat split.
  - intros ->. reflexivity.
  - intros t -> ->. reflexivity.
  - intros t -> H. destruct (rt_text t); [congruence|reflexivity].
  - destruct (wayPointOffset conn) as [wx wy].
    destruct (conn_title conn) as [t|]; [destruct (truthy (rt_text t))|];
      reflexivity.
Qed.

(** The entry of a token survives the rest of the walk when every later
    file of that token gives the same path. *)
Lemma pass1_preserve (base : jsstring) (files : list (RawMap value * jsstring))
    (m : gmap jsstring jsstring) (k v : jsstring) :
  m !! k = Some v ->
  (forall f, In f files -> token (fst f) = k -> relativeFilePath base (snd f) = v) ->
  fold_left (pass1_callback base) files m !! k = Some v.
Proof.
  revert m. induction files as [|f files IH]; intros m Hm Hall; [exact Hm|].
  cbn [fold_left]. apply IH.
  - unfold pass1_callback.
    destruct (decide (token (fst f) = k)) as [E|E].
    + rewrite E, lookup_insert_eq. f_equal. apply Hall; [left; reflexivity|exact E].
    + rewrite lookup_insert_ne by exact E. exact Hm.
  - intros f' Hin. apply Hall. right. exact Hin.
Qed.

(** The specification's path and the parser's agree on a file name made of
    the base, a path without [.json] in it, and the suffix [.json]. *)
Lemma relativeFilePath_plain (base rel : jsstring) :
  includes (js ".json") (rel ++ removelast (js ".json")) = false ->
  relativeFilePath base (base ++ rel ++ js ".json")
  = (if bool_decide (rel <> sentinel) then removeFirst sentinel rel else rel)
  /\ spec_relativeFilePath base (base ++ rel ++ js ".json")
     = relativeFilePath base (base ++ rel ++ js ".json").
Proof.
  intros H.
  assert (E1 : removeFirst base (base ++ rel ++ js ".json") = rel ++ js ".json").
  { rewrite removeFirst_eq, startsWith_app, drop_app_length. reflexivity. }
  assert (E2 : removeFirst (js ".json") (rel ++ js ".json") = rel).
  { rewrite <- (app_nil_r (js ".json")) at 2.
    rewrite removeFirst_first; [apply app_nil_r|discriminate|exact H]. }
  assert (E3 : stripSuffix (js ".json")
                 (stripPrefix base (base ++ rel ++ js ".json")) = rel).
  { unfold stripSuffix, stripPrefix at 2.
    rewrite startsWith_app, drop_app_length.
    rewrite rev_app_distr. unfold stripPrefix.
    rewrite startsWith_app, drop_app_length. apply rev_involutive. }
  unfold relativeFilePath, spec_relativeFilePath.
  rewrite E1, E2, E3. split; reflexivity.
Qed.

(** C4 (as amended): after the first pass, the table entry of the token of
    every file of the walk is [relativeFilePath] of its name, that is the
    name without the first occurrence of the base path, then without the
    first occurrence of [.json], then, unless what is left is exactly
    [/learn-anything], without the first occurrence of [/learn-anything];
    for a name [base ++ rel ++ ".json"] whose [rel] holds no [.json], this is
    stripping the prefix and the suffix. Files that share a token are
    supposed to share their name. *)
Theorem pass1_entry (base : jsstring) (files : list (RawMap value * jsstring))
    (map : RawMap value) (filename : jsstring) :
  In (map, filename) files ->
  (forall f, In f files -> token (fst f) = token map -> snd f = filename) ->
  pass1 base files !! token map = Some (relativeFilePath base filename)
  /\ relativeFilePath base filename =
       (let p := removeFirst (js ".json") (removeFirst base filename) in
        if bool_decide (p <> sentinel) then removeFirst sentinel p else p)
  /\ (forall rel, filename = base ++ rel ++ js ".json" ->
        includes (js ".json") (rel ++ removelast (js ".json")) = false ->
        relativeFilePath base filename
        = (if bool_decide (rel <> sentinel) then removeFirst sentinel rel else rel)
        /\ relativeFilePath base filename = spec_relativeFilePath base filename).
Proof.
  intros Hin Hfun. split; [|split; [reflexivity|]].
  - apply in_split in Hin as (l1 & l2 & ->).
    unfold pass1. rewrite fold_left_app. cbn [fold_left].
    apply pass1_preserve.
    + unfold pass1_callback. cbn [fst snd]. apply lookup_insert_eq.
    + intros f Hf Htok. f_equal. apply Hfun; [|exact Htok].
      apply in_or_app. right. right. exact Hf.
  - intros rel -> H. destruct (relativeFilePath_plain base rel H) as [E1 E2].
    split; [exact E1|symmetry; exact E2].
Qed.

(** *** The flattening *)

Lemma forEachPush_pure {A B : Type} (f : A -> result (list B)) (g : A -> list B)
    (l : list A) :
  Forall (fun a => f a = Ok (g a)) l -> forEachPush f l = Ok (flat_map g l).
Proof.
  induction 1 as [|a l Ha _ IH]; [reflexivity|].
  cbn [forEachPush flat_map]. rewrite Ha, IH. reflexivity.
Qed.

(** [getSubnodesR_each] is the callback of [getSubnodesR]. *)
Lemma getSubnodesR_each_eq (lk : gmap jsstring jsstring) (parent : jsstring)
    (subnode : RawNode value) :
  getSubnodesR_each getText getURL lk parent subnode =
  (p ← parseNode getText getURL lk subnode;
   sub ← getSubnodesR getText getURL lk (nodes subnode) (text p);
   Ok ({| fs_parent := parent; fs_node := subnode |} :: sub)).
Proof.
  destruct subnode as [t n loc i st children]. cbn [getSubnodesR_each nodes].
  destruct (parseNode getText getURL lk (mkRawNode t n loc i st children)) as [p|e];
    [|reflexivity].
  cbn [mbind result_bind]. unfold getSubnodesR.
  assert (E : forall l,
    (fix each_child (l : list (RawNode value)) : result (list (FlatSubnode value)) :=
       match l with
       | [] => Ok []
       | c :: l' =>
           bs ← getSubnodesR_each getText getURL lk (text p) c;
           rest ← each_child l';
           Ok (bs ++ rest)
       end) l
    = forEachPush (getSubnodesR_each getText getURL lk (text p)) l).
  { induction l as [|c l IH]; [reflexivity|].
    cbn [forEachPush]. rewrite IH. reflexivity. }
  rewrite E. reflexivity.
Qed.

Lemma titled_eq (n : RawNode value) :
  titled n = bool_decide (title n <> None) && forallb titled (nodes n).
Proof. destruct n; reflexivity. Qed.

Lemma titled_title (n : RawNode value) :
  titled n = true -> exists t, title n = Some t.
Proof.
  rewrite titled_eq. intros H. apply andb_prop in H as [H _].
  apply bool_decide_eq_true in H. destruct (title n) as [t|]; [eauto|congruence].
Qed.

Lemma titled_children (n : RawNode value) :
  titled n = true -> Forall (fun c => titled c = true) (nodes n).
Proof.
  rewrite titled_eq. intros H. apply andb_prop in H as [_ H].
  apply List.Forall_forall. intros c Hc.
  rewrite forallb_forall in H. apply H, Hc.
Qed.

(** A titled node is parsed, and its text is [nodeText]. *)
Lemma parseNode_nodeText (lk : gmap jsstring jsstring) (n : RawNode value) :
  titled n = true ->
  exists p, parseNode getText getURL lk n = Ok p
            /\ text p = nodeText getText getURL lk n.
Proof.
  intros H. destruct (titled_title n H) as [t Ht].
  destruct (parseNode_titled lk n t Ht) as (p & Hp & _).
  exists p. split; [exact Hp|]. unfold nodeText. rewrite Hp. reflexivity.
Qed.

(** On a tree whose nodes all have a title nothing throws, and the records
    are those of [flat_each]. *)
Lemma getSubnodesR_each_pure (lk : gmap jsstring jsstring) (n : RawNode value) :
  titled n = true ->
  forall parent,
    getSubnodesR_each getText getURL lk parent n
    = Ok (flat_each getText getURL lk parent n).
Proof.
  induction n as [t nt loc i st children IH] using RawNode_forall_ind.
  intros Ht parent. rewrite getSubnodesR_each_eq.
  destruct (parseNode_nodeText lk _ Ht) as (p & Hp & Htext).
  rewrite Hp. cbn [mbind result_bind nodes]. unfold getSubnodesR.
  rewrite (forEachPush_pure _ (flat_each getText getURL lk (text p))).
  - rewrite Htext. reflexivity.
  - pose proof (titled_children _ Ht) as Hc. cbn [nodes] in Hc.
    rewrite List.Forall_forall in *. intros c Hin. apply IH; auto.
Qed.

Lemma getSubnodesR_pure (lk : gmap jsstring jsstring)
    (subnodes : list (RawNode value)) (parent : jsstring) :
  forallb titled subnodes = true ->
  getSubnodesR getText getURL lk subnodes parent
  = Ok (flat_map (flat_each getText getURL lk parent) subnodes).
Proof.
  intros H. unfold getSubnodesR. apply forEachPush_pure.
  apply List.Forall_forall. intros c Hc. apply getSubnodesR_each_pure.
  rewrite forallb_forall in H. apply H, Hc.
Qed.

Lemma getSubnodes_pure (lk : gmap jsstring jsstring) (nodes0 : list (RawNode value)) :
  forallb titled nodes0 = true ->
  getSubnodes getText getURL lk nodes0
  = Ok (flat_map (flat_below getText getURL lk) nodes0).
Proof.
  intros H. unfold getSubnodes. apply forEachPush_pure.
  apply List.Forall_forall. intros n Hn.
  rewrite forallb_forall in H. specialize (H n Hn).
  destruct (parseNode_nodeText lk n H) as (p & Hp & Htext).
  rewrite Hp. cbn [mbind result_bind]. rewrite getSubnodesR_pure.
  - rewrite Htext. reflexivity.
  - pose proof (titled_children n H) as Hc. apply forallb_forall.
    rewrite List.Forall_forall in Hc. exact Hc.
Qed.

Lemma flat_each_eq (lk : gmap jsstring jsstring) (parent : jsstring) (n : RawNode value) :
  flat_each getText getURL lk parent n
  = {| fs_parent := parent; fs_node := n |} :: flat_below getText getURL lk n.
Proof. destruct n; reflexivity. Qed.

Lemma descendants_eq (n : RawNode value) :
  descendants n = preorder (nodes n).
Proof. destruct n; reflexivity. Qed.

Lemma count_nodes_eq (n : RawNode value) :
  count_nodes n = S (total_nodes (nodes n)).
Proof. destruct n; reflexivity. Qed.

(** The nodes of the records are the nodes below, in pre-order. *)
Lemma flat_each_nodes (lk : gmap jsstring jsstring) (n : RawNode value) :
  forall parent,
    List.map fs_node (flat_each getText getURL lk parent n) = n :: descendants n.
Proof.
  induction n as [t nt loc i st children IH] using RawNode_forall_ind.
  intros parent. rewrite flat_each_eq, descendants_eq. cbn [List.map fs_node nodes].
  f_equal. unfold flat_below, preorder. cbn [nodes].
  generalize (nodeText getText getURL lk (mkRawNode t nt loc i st children)) as q.
  intros q. induction IH as [|c l Hc _ IHl]; [reflexivity|].
  cbn [flat_map]. rewrite map_app, Hc, IHl. reflexivity.
Qed.

Lemma flat_map_nodes (lk : gmap jsstring jsstring) (parent : jsstring)
    (l : list (RawNode value)) :
  List.map fs_node (flat_map (flat_each getText getURL lk parent) l) = preorder l.
Proof.
  unfold preorder. induction l as [|c l IH]; [reflexivity|].
  cbn [flat_map]. rewrite map_app, flat_each_nodes, IH. reflexivity.
Qed.

(** Pre-order visits every node once: as many as the trees count. *)
Lemma preorder_length (l : list (RawNode value)) :
  length (preorder l) = total_nodes l.
Proof.
  assert (H : Forall (fun n => length (descendants n) = total_nodes (nodes n)) l).
  { apply List.Forall_forall. intros n _.
    induction n as [t nt loc i st children IH] using RawNode_forall_ind.
    rewrite descendants_eq. cbn [nodes]. unfold preorder, total_nodes.
    induction IH as [|c l' Hc _ IHl]; [reflexivity|].
    cbn [flat_map List.map list_sum]. rewrite length_app. cbn [length].
    rewrite Hc, IHl, count_nodes_eq. reflexivity. }
  unfold preorder, total_nodes.
  induction H as [|c l' Hc _ IHl]; [reflexivity|].
  cbn [flat_map List.map list_sum]. rewrite length_app. cbn [length].
  rewrite Hc, IHl, count_nodes_eq. reflexivity.
Qed.

(** C2 (as amended): on a node tree every node of which has a title, flattening the
    children of a node under a parent text returns their descendants in
    depth-first pre-order, each child before its own descendants and the
    children in their order, the children themselves filed under the parent
    text; and the subnodes of a map are as many as its nodes that are not
    top-level nodes. *)
Theorem getSubnodes_preorder (lk : gmap jsstring jsstring)
    (nodes0 : list (RawNode value)) :
  forallb titled nodes0 = true ->
  (forall parent, exists out,
      getSubnodesR getText getURL lk nodes0 parent = Ok out
      /\ List.map fs_node out = preorder nodes0
      /\ length out = total_nodes nodes0
      /\ forall c, In c nodes0 ->
           In {| fs_parent := parent; fs_node := c |} out)
  /\ exists flat,
      getSubnodes getText getURL lk nodes0 = Ok flat
      /\ List.map fs_node flat = flat_map descendants nodes0
      /\ (length flat + length nodes0 = total_nodes nodes0)%nat.
Proof.
  intros H. split.
  - intros parent. eexists. split; [apply getSubnodesR_pure, H|].
    split; [apply flat_map_nodes|]. split.
    + rewrite <- (length_map fs_node), flat_map_nodes. apply preorder_length.
    + intros c Hc. apply in_flat_map. exists c. split; [exact Hc|].
      rewrite flat_each_eq. left. reflexivity.
  - eexists. split; [apply getSubnodes_pure, H|].
    assert (E : List.map fs_node (flat_map (flat_below getText getURL lk) nodes0)
                = flat_map descendants nodes0).
    { clear H. induction nodes0 as [|n l IH]; [reflexivity|].
      cbn [flat_map]. rewrite map_app, IH. f_equal.
      unfold flat_below. rewrite flat_map_nodes, descendants_eq. reflexivity. }
    split; [exact E|].
    rewrite <- (length_map fs_node), E.
    clear. unfold total_nodes. induction nodes0 as [|n l IH]; [reflexivity|].
    cbn [flat_map List.map list_sum length]. rewrite length_app.
    rewrite count_nodes_eq, descendants_eq, preorder_length.
    change (list_sum (S (total_nodes (nodes n)) :: List.map count_nodes l))
      with (S (total_nodes (nodes n)) + list_sum (List.map count_nodes l))%nat.
    lia.
Qed.

(** *** Positions *)

Lemma positions_below_eq (n : RawNode value) :
  positions_below n = positions_from 0 (nodes n).
Proof.
  destruct n as [t nt loc i st children]. cbn [positions_below nodes].
  generalize 0%nat. induction children as [|c l IH]; intros k; [reflexivity|].
  cbn [positions_from]. rewrite IH. reflexivity.
Qed.

Lemma node_at_cons (l : list (RawNode value)) (i : nat) (p : list nat) :
  node_at l (i :: p) =
  match l !! i with
  | Some n => match p with
              | [] => Some n
              | _ :: _ => node_at (nodes n) p
              end
  | None => None
  end.
Proof. reflexivity. Qed.

(** Below the node at position [r], positions go on in its children. *)
Lemma node_at_app (l : list (RawNode value)) (r q : list nat) (n : RawNode value) :
  node_at l r = Some n -> q <> [] ->
  node_at l (r ++ q) = node_at (nodes n) q.
Proof.
  revert l. induction r as [|i r IH]; intros l Hr Hq; [discriminate|].
  rewrite node_at_cons in Hr. cbn [app]. rewrite node_at_cons.
  destruct (l !! i) as [x|]; [|discriminate].
  destruct r as [|i' r].
  - injection Hr as ->. destruct q; [congruence|reflexivity].
  - cbn [app]. apply (IH (nodes x)); assumption.
Qed.

Lemma node_at_last (l : list (RawNode value)) (r : list nat) (i : nat)
    (n c : RawNode value) :
  node_at l r = Some n -> nodes n !! i = Some c -> node_at l (r ++ [i]) = Some c.
Proof.
  intros Hr Hc. rewrite (node_at_app l r [i] n Hr) by discriminate.
  rewrite node_at_cons, Hc. reflexivity.
Qed.

(** The records below a node sit at the positions below it, each filed
    under the node right above it. *)
Lemma flat_below_filed (lk : gmap jsstring jsstring) (F : list (RawNode value))
    (n : RawNode value) :
  forall r, node_at F r = Some n ->
    Forall2 (filed_under getText getURL lk F)
            (app r <$> positions_below n) (flat_below getText getURL lk n).
Proof.
  induction n as [t nt loc i0 st children IH] using RawNode_forall_ind.
  intros r Hr. rewrite positions_below_eq. unfold flat_below. cbn [nodes].
  set (n := mkRawNode t nt loc i0 st children) in *.
  assert (G : forall l i,
             (forall j c, l !! j = Some c -> children !! (i + j)%nat = Some c) ->
             Forall (fun c => forall r, node_at F r = Some c ->
                       Forall2 (filed_under getText getURL lk F)
                               (app r <$> positions_below c)
                               (flat_below getText getURL lk c)) l ->
             Forall2 (filed_under getText getURL lk F)
                     (app r <$> positions_from i l)
                     (flat_map (flat_each getText getURL lk
                                  (nodeText getText getURL lk n)) l)).
  { induction l as [|c l IHl]; intros i Hidx Hall; [constructor|].
    apply Forall_cons_1 in Hall as [Hc Hall].
    assert (Hci : children !! i = Some c).
    { rewrite <- (Nat.add_0_r i). apply Hidx. reflexivity. }
    assert (Hat : node_at F (r ++ [i]) = Some c).
    { apply (node_at_last F r i n c Hr). exact Hci. }
    cbn [positions_from flat_map]. rewrite flat_each_eq.
    rewrite fmap_app, fmap_cons. cbn [app].
    constructor; [|apply Forall2_app].
    - split; [exact Hat|]. exists n. rewrite removelast_last. auto.
    - rewrite <- list_fmap_compose.
      rewrite (list_fmap_ext _ (app (r ++ [i])) (positions_below c));
        [apply Hc, Hat|].
      intros k q _. cbn. rewrite <- app_assoc. reflexivity.
    - apply IHl; [|exact Hall]. intros j c' Hj.
      replace (S i + j)%nat with (i + S j)%nat by lia. apply Hidx. exact Hj. }
  apply G; [|exact IH]. intros j c Hj. exact Hj.
Qed.

Lemma subnodes_filed (lk : gmap jsstring jsstring) (F : list (RawNode value)) :
  Forall2 (filed_under getText getURL lk F)
          (subnode_positions F) (flat_map (flat_below getText getURL lk) F).
Proof.
  unfold subnode_positions.
  assert (G : forall l i,
             (forall j c, l !! j = Some c -> F !! (i + j)%nat = Some c) ->
             Forall2 (filed_under getText getURL lk F)
                     (subnode_positions_from i l)
                     (flat_map (flat_below getText getURL lk) l)).
  { induction l as [|n l IHl]; intros i Hidx; [constructor|].
    cbn [subnode_positions_from flat_map]. apply Forall2_app.
    - apply (flat_below_filed lk F n [i]).
      rewrite node_at_cons, <- (Nat.add_0_r i), (Hidx 0%nat n); reflexivity.
    - apply IHl. intros j c Hj.
      replace (S i + j)%nat with (i + S j)%nat by lia. apply Hidx. exact Hj. }
  apply G. intros j c Hj. exact Hj.
Qed.

Lemma ancestors_first_app (d : nat) (ps1 ps2 : list (list nat)) :
  ancestors_first d ps1 -> ancestors_first d ps2 ->
  ancestors_first d (ps1 ++ ps2).
Proof.
  intros H1 H2 k p Hk. apply lookup_app_Some in Hk as [Hk|[Hlen Hk]].
  - destruct (H1 k p Hk) as [Hd [Hl|(j & Hj & Hjp)]]; (split; [exact Hd|]); auto.
    right. exists j. split; [exact Hj|]. apply lookup_app_l_Some. exact Hjp.
  - destruct (H2 _ p Hk) as [Hd [Hl|(j & Hj & Hjp)]]; (split; [exact Hd|]); auto.
    right. exists (length ps1 + j)%nat. split; [lia|].
    rewrite lookup_app_r by lia.
    replace (length ps1 + j - length ps1)%nat with j by lia. exact Hjp.
Qed.

Lemma removelast_cons (i : nat) (q : list nat) :
  q <> [] -> removelast (i :: q) = i :: removelast q.
Proof. destruct q; [congruence|reflexivity]. Qed.

Lemma ancestors_first_tree (i : nat) (ps : list (list nat)) :
  ancestors_first 1 ps -> ancestors_first 1 ([i] :: (cons i <$> ps)).
Proof.
  intros H k p Hk. destruct k as [|k].
  - injection Hk as <-. split; [reflexivity|left; reflexivity].
  - change (((cons i <$> ps) : list (list nat)) !! k = Some p) in Hk.
    rewrite list_lookup_fmap in Hk.
    destruct (ps !! k) as [q|] eqn:Hq; [|discriminate]. injection Hk as <-.
    destruct (H k q Hq) as [Hd Hup]. split; [cbn [length]; lia|]. right.
    destruct Hup as [Hl|(j & Hj & Hjp)].
    + exists 0%nat. split; [lia|].
      destruct q as [|a [|b q]]; cbn [length] in Hl; try lia. reflexivity.
    + exists (S j). split; [lia|].
      change (((cons i <$> ps) : list (list nat)) !! j = Some (removelast (i :: q))).
      rewrite list_lookup_fmap, Hjp. cbn [fmap option_fmap option_map].
      rewrite removelast_cons; [reflexivity|].
      intros ->. cbn [length] in Hd. lia.
Qed.

Lemma ancestors_first_lift (i : nat) (ps : list (list nat)) :
  ancestors_first 1 ps -> ancestors_first 2 (cons i <$> ps).
Proof.
  intros H k p Hk. rewrite list_lookup_fmap in Hk.
  destruct (ps !! k) as [q|] eqn:Hq; [|discriminate]. injection Hk as <-.
  destruct (H k q Hq) as [Hd Hup]. split; [cbn [length]; lia|].
  destruct Hup as [Hl|(j & Hj & Hjp)].
  - left. cbn [length]. lia.
  - right. exists j. split; [exact Hj|].
    rewrite list_lookup_fmap, Hjp. cbn [fmap option_fmap option_map].
    rewrite removelast_cons; [reflexivity|].
    intros ->. cbn [length] in Hd. lia.
Qed.

Lemma positions_from_ancestors_first (l : list (RawNode value)) :
  Forall (fun c => ancestors_first 1 (positions_below c)) l ->
  forall i, ancestors_first 1 (positions_from i l).
Proof.
  induction 1 as [|c l Hc _ IH]; intros i.
  - intros k p Hk. discriminate.
  - cbn [positions_from]. apply ancestors_first_app; [|apply IH].
    apply ancestors_first_tree, Hc.
Qed.

Lemma positions_below_ancestors_first (n : RawNode value) :
  ancestors_first 1 (positions_below n).
Proof.
  induction n as [t nt loc i0 st children IH] using RawNode_forall_ind.
  rewrite positions_below_eq. apply positions_from_ancestors_first, IH.
Qed.

(** In the traversal every subnode deeper than a child of a top-level node
    comes after the subnode right above it. *)
Lemma subnode_positions_ancestors_first (F : list (RawNode value)) :
  ancestors_first 2 (subnode_positions F).
Proof.
  unfold subnode_positions.
  assert (G : forall i, ancestors_first 2 (subnode_positions_from i F));
    [|apply G].
  induction F as [|n l IH]; intros i.
  - intros k p Hk. discriminate.
  - cbn [subnode_positions_from]. apply ancestors_first_app; [|apply IH].
    apply ancestors_first_lift, positions_below_ancestors_first.
Qed.

(** The traversal misses no node: every position of the forest is listed. *)
Lemma positions_from_complete (l : list (RawNode value)) :
  Forall (fun n => forall q c, node_at (nodes n) q = Some c ->
                     In q (positions_below n)) l ->
  forall i j q c, node_at l (j :: q) = Some c ->
    In ((i + j)%nat :: q) (positions_from i l).
Proof.
  induction 1 as [|c0 l Hc0 _ IH]; intros i j q c Hq.
  - rewrite node_at_cons in Hq. destruct j; discriminate.
  - cbn [positions_from]. apply in_or_app. destruct j as [|j].
    + left. rewrite Nat.add_0_r. rewrite node_at_cons in Hq. cbn in Hq.
      destruct q as [|j' q]; [left; reflexivity|].
      right. apply list_elem_of_In, list_elem_of_fmap_2, list_elem_of_In.
      eapply Hc0, Hq.
    + right. replace (i + S j)%nat with (S i + j)%nat by lia.
      apply (IH (S i) j q c). rewrite node_at_cons in *. exact Hq.
Qed.

Lemma positions_below_complete (n : RawNode value) :
  forall q c, node_at (nodes n) q = Some c -> In q (positions_below n).
Proof.
  induction n as [t nt loc i0 st children IH] using RawNode_forall_ind.
  intros q c Hq. rewrite positions_below_eq.
  destruct q as [|j q]; [discriminate|].
  apply (positions_from_complete _ IH 0%nat j q c Hq).
Qed.

Lemma subnode_positions_complete (F : list (RawNode value)) (p : list nat)
    (c : RawNode value) :
  node_at F p = Some c -> (2 <= length p)%nat -> In p (subnode_positions F).
Proof.
  unfold subnode_positions. intros Hp Hlen.
  destruct p as [|j [|j' q]]; cbn [length] in Hlen; try lia.
  assert (G : forall l i j, node_at l (j :: j' :: q) = Some c ->
                In ((i + j)%nat :: j' :: q) (subnode_positions_from i l)).
  { clear. induction l as [|n l IH]; intros i j Hq.
    - rewrite node_at_cons in Hq. destruct j; discriminate.
    - cbn [subnode_positions_from]. apply in_or_app. destruct j as [|j].
      + left. rewrite Nat.add_0_r. rewrite node_at_cons in Hq. cbn in Hq.
        apply list_elem_of_In, list_elem_of_fmap_2, list_elem_of_In.
        eapply positions_below_complete, Hq.
      + right. replace (i + S j)%nat with (S i + j)%nat by lia.
        apply (IH (S i) j). rewrite node_at_cons in *. exact Hq. }
  apply (G F 0%nat j Hp).
Qed.

Lemma forallb_titled_lookup (l : list (RawNode value)) (i : nat) (n : RawNode value) :
  forallb titled l = true -> l !! i = Some n -> titled n = true.
Proof.
  intros H Hi. rewrite forallb_forall in H. apply H.
  apply list_elem_of_In. eapply list_elem_of_lookup_2, Hi.
Qed.

Lemma titled_forallb (n : RawNode value) :
  titled n = true -> forallb titled (nodes n) = true.
Proof. rewrite titled_eq. intros H. apply andb_prop in H. tauto. Qed.

Lemma node_at_titled (F : list (RawNode value)) (p : list nat) (c : RawNode value) :
  forallb titled F = true -> node_at F p = Some c -> titled c = true.
Proof.
  revert F. induction p as [|i p IH]; intros F HF Hp; [discriminate|].
  rewrite node_at_cons in Hp.
  destruct (F !! i) as [n|] eqn:Hn; [|discriminate].
  pose proof (forallb_titled_lookup F i n HF Hn) as Ht.
  destruct p as [|i' p].
  - injection Hp as <-. exact Ht.
  - apply (IH (nodes n)); [apply titled_forallb, Ht|exact Hp].
Qed.

Lemma mapM_Forall2 {A B : Type} (f : A -> result B) (l : list A) :
  Forall (fun a => exists b, f a = Ok b) l ->
  exists bs, mapM f l = Ok bs /\ Forall2 (fun a b => f a = Ok b) l bs.
Proof.
  induction 1 as [|a l [b Hb] _ (bs & Hbs & HF)].
  - exists []. split; [reflexivity|constructor].
  - exists (b :: bs). cbn [mapM]. rewrite Hb, Hbs.
    split; [reflexivity|]. constructor; assumption.
Qed.

Lemma parseSubnode_Ok (lk : gmap jsstring jsstring) (fs : FlatSubnode value)
    (s : ParsedSubnode value) :
  parseSubnode getText getURL lk fs = Ok s ->
  parseNode getText getURL lk (fs_node fs) = Ok (sn_node s)
  /\ sn_parent s = fs_parent fs.
Proof.
  unfold parseSubnode.
  destruct (parseNode getText getURL lk (fs_node fs)) as [p|e]; [|discriminate].
  cbn [mbind result_bind]. intros H. injection H as <-. split; reflexivity.
Qed.

(** C3: in the parsed map of a document (every node of which has a title),
    the subnode at index [k] is the parsed node at the [k]-th position [p] of
    the traversal, and its [parent] is the text of the parsed node at
    [removelast p], the node right above it; that node is a top-level node,
    parsed into [nodes], or a subnode at an index [j < k]. The traversal
    lists the position of every node below the top level. *)
Theorem subnode_parent (lk : gmap jsstring jsstring) (map : RawMap value) :
  forallb titled (map_nodes map) = true ->
  exists pm, parseMap getText getURL lk map = Ok pm
    /\ length (pm_subnodes pm) = length (subnode_positions (map_nodes map))
    /\ (forall (p : list nat) (c : RawNode value),
          node_at (map_nodes map) p = Some c -> (2 <= length p)%nat ->
          In p (subnode_positions (map_nodes map)))
    /\ forall (k : nat) (p : list nat) (s : ParsedSubnode value),
         subnode_positions (map_nodes map) !! k = Some p ->
         pm_subnodes pm !! k = Some s ->
         exists (c m : RawNode value) (above : ParsedNode value),
           node_at (map_nodes map) p = Some c
           /\ parseNode getText getURL lk c = Ok (sn_node s)
           /\ node_at (map_nodes map) (removelast p) = Some m
           /\ parseNode getText getURL lk m = Ok above
           /\ sn_parent s = text above
           /\ ((exists i, removelast p = [i] /\ pm_nodes pm !! i = Some above)
               \/ (exists j s', (j < k)%nat
                     /\ subnode_positions (map_nodes map) !! j = Some (removelast p)
                     /\ pm_subnodes pm !! j = Some s'
                     /\ sn_node s' = above)).
Proof.
  intros HF. set (F := map_nodes map) in *.
  pose proof (subnodes_filed lk F) as Hfiled.
  pose proof (subnode_positions_ancestors_first F) as Hord.
  destruct (mapM_Forall2 (parseNode getText getURL lk) F) as (pns & Hpns & Hnodes).
  { apply List.Forall_forall. intros n Hn.
    rewrite forallb_forall in HF.
    destruct (parseNode_nodeText lk n (HF n Hn)) as (q & Hq & _). eauto. }
  destruct (mapM_Forall2 (parseSubnode getText getURL lk)
              (flat_map (flat_below getText getURL lk) F)) as (subs & Hsubs & Hsub).
  { apply Forall_lookup_2. intros k fs Hk.
    destruct (Forall2_lookup_r _ _ _ _ _ Hfiled Hk) as (p & _ & Hp & _).
    destruct (parseNode_nodeText lk (fs_node fs) (node_at_titled F p _ HF Hp))
      as (q & Hq & _).
    unfold parseSubnode. rewrite Hq. cbn [mbind result_bind]. eauto. }
  eexists. split.
  { unfold parseMap. fold F. rewrite Hpns. cbn [mbind result_bind].
    rewrite (getSubnodes_pure lk F HF). cbn [mbind result_bind].
    rewrite Hsubs. cbn [mbind result_bind]. reflexivity. }
  cbn [pm_subnodes pm_nodes]. split.
  { rewrite <- (Forall2_length _ _ _ Hsub). symmetry.
    apply (Forall2_length _ _ _ Hfiled). }
  split; [apply subnode_positions_complete|].
  intros k p s Hk Hs.
  destruct (Forall2_lookup_l _ _ _ _ _ Hfiled Hk) as (fs & Hfs & Hc & m & Hm & Hpar).
  pose proof (Forall2_lookup_lr _ _ _ _ _ _ Hsub Hfs Hs) as Hps.
  apply parseSubnode_Ok in Hps as [Hpc Hsp].
  destruct (parseNode_nodeText lk m (node_at_titled F _ _ HF Hm)) as (above & Habove & Htext).
  exists (fs_node fs), m, above.
  split; [exact Hc|]. split; [exact Hpc|]. split; [exact Hm|].
  split; [exact Habove|]. split; [congruence|].
  destruct (Hord k p Hk) as [Hd [Hl|(j & Hj & Hjp)]].
  - left. destruct p as [|i [|i' [|i'' p]]]; cbn [length] in Hl; try lia.
    exists i. split; [reflexivity|].
    cbn [removelast] in Hm. rewrite node_at_cons in Hm.
    destruct (F !! i) as [n|] eqn:Hn; [|discriminate]. injection Hm as ->.
    destruct (Forall2_lookup_l _ _ _ _ _ Hnodes Hn) as (q & Hq & Hpq).
    rewrite Hq. congruence.
  - right.
    destruct (Forall2_lookup_l _ _ _ _ _ Hfiled Hjp) as (fs' & Hfs' & Hc' & _).
    destruct (Forall2_lookup_l _ _ _ _ _ Hsub Hfs') as (s' & Hs' & Hps').
    apply parseSubnode_Ok in Hps' as [Hpc' _].
    exists j, s'. split; [exact Hj|]. split; [exact Hjp|]. split; [exact Hs'|].
    congruence.
Qed.

End ParserProperties.

(** * The properties at sample inputs *)

(** C1: the eyes and a label give the category "video" and the label. *)
Lemma parseNode_category_witness :
  title (Examples.leaf ([0xD83D; 0xDC40] ++ js " Intro to X"))
  = Some {| rt_text := [0xD83D; 0xDC40] ++ js " Intro to X" |}
  /\ exists p,
       parseNode Regex.getText Regex.getURL ∅
         (Examples.leaf ([0xD83D; 0xDC40] ++ js " Intro to X")) = Ok p
       /\ category p = Some (js "video") /\ text p = js "Intro to X".
Proof.
  split; [reflexivity|].
  destruct (parseNode_category Regex.getText Regex.getURL ∅
              (Examples.leaf ([0xD83D; 0xDC40] ++ js " Intro to X")) _ eq_refl)
    as (p & Hp & _ & H).
  exists p. split; [exact Hp|].
  apply (H [] 0xD83D 0xDC40 (js " Intro to X")); try reflexivity.
  intros (a & hi & lo & b & E & _). destruct a; discriminate.
Defined.

(** C1, counterexample: the only emoji of the title is the grinning face,
    which the table does not know, and yet the parsed node has a
    [category], the empty string. *)
Lemma parseNode_unlisted_emoji :
  Emojis.matchAll (Regex.getText (Examples.grinningFace ++ js " hi"))
  = [Examples.grinningFace]
  /\ Emojis.assoc Examples.grinningFace Emojis.categoryTable = None
  /\ exists p,
       parseNode Regex.getText Regex.getURL ∅
         (Examples.leaf (Examples.grinningFace ++ js " hi")) = Ok p
       /\ category p = Some [] /\ category p <> None /\ text p = js "hi".
Proof.
  split; [reflexivity|]. split; [reflexivity|].
  eexists. split; [reflexivity|]. cbn [category text].
  split; [reflexivity|]. split; [discriminate|reflexivity].
Qed.

(** C2: two top-level nodes, the first with a child that has a child and
    with a second child: three subnodes among five nodes. *)
Lemma getSubnodes_preorder_witness :
  forallb titled
    [Examples.tree (js "a")
       [Examples.tree (js "b") [Examples.leaf (js "c")]; Examples.leaf (js "d")];
     Examples.leaf (js "e")] = true
  /\ exists flat,
       getSubnodes Regex.getText Regex.getURL ∅
         [Examples.tree (js "a")
            [Examples.tree (js "b") [Examples.leaf (js "c")]; Examples.leaf (js "d")];
          Examples.leaf (js "e")] = Ok flat
       /\ List.map fs_node flat
          = [Examples.tree (js "b") [Examples.leaf (js "c")];
             Examples.leaf (js "c"); Examples.leaf (js "d")]
       /\ length flat = 3%nat.
Proof.
  split; [reflexivity|].
  destruct (getSubnodes_preorder Regex.getText Regex.getURL ∅
              [Examples.tree (js "a")
                 [Examples.tree (js "b") [Examples.leaf (js "c")];
                  Examples.leaf (js "d")];
               Examples.leaf (js "e")] eq_refl)
    as (_ & flat & Hflat & Hnodes & Hlen).
  exists flat. split; [exact Hflat|]. split; [exact Hnodes|].
  change (length flat + 2 = 5)%nat in Hlen. lia.
Defined.

(** C2, counterexample: a tree whose only subnode, a leaf, has no title:
    the flattening throws where the claim has it return that one subnode. *)
Lemma getSubnodes_untitled_leaf_throws :
  flat_map descendants [Examples.tree (js "a") [Examples.untitled]]
  = [Examples.untitled]
  /\ getSubnodes Regex.getText Regex.getURL ∅
       [Examples.tree (js "a") [Examples.untitled]] = Throw TypeError
  /\ getSubnodesR Regex.getText Regex.getURL ∅ [Examples.untitled] (js "a")
     = Throw TypeError.
Proof. split; [reflexivity|]. split; reflexivity. Qed.

(** C3: in the same map the subnode "c", third level, is filed under "b",
    the subnode of index 0. *)
Lemma subnode_parent_witness :
  forallb titled
    (map_nodes
       {| map_title := 0; token := Examples.token40;
          map_nodes :=
            [Examples.tree (js "a")
               [Examples.tree (js "b") [Examples.leaf (js "c")];
                Examples.leaf (js "d")];
             Examples.leaf (js "e")];
          map_connections := [] |}) = true
  /\ exists pm,
       parseMap Regex.getText Regex.getURL ∅
         {| map_title := 0; token := Examples.token40;
            map_nodes :=
              [Examples.tree (js "a")
                 [Examples.tree (js "b") [Examples.leaf (js "c")];
                  Examples.leaf (js "d")];
               Examples.leaf (js "e")];
            map_connections := [] |} = Ok pm
       /\ List.map sn_parent (pm_subnodes pm) = [js "a"; js "b"; js "a"]
       /\ List.map (fun s => text (sn_node s)) (pm_subnodes pm)
          = [js "b"; js "c"; js "d"].
Proof.
  split; [reflexivity|].
  destruct (subnode_parent Regex.getText Regex.getURL ∅
              {| map_title := 0; token := Examples.token40;
                 map_nodes :=
                   [Examples.tree (js "a")
                      [Examples.tree (js "b") [Examples.leaf (js "c")];
                       Examples.leaf (js "d")];
                    Examples.leaf (js "e")];
                 map_connections := [] |} eq_refl)
    as (pm & Hpm & _).
  exists pm. split; [exact Hpm|].
  injection Hpm as <-. split; reflexivity.
Defined.

(** C4: a file of the input folder. *)
Lemma pass1_entry_witness :
  In (Examples.doc Examples.token40, js "/in/learn-anything/physics.json")
     [(Examples.doc Examples.token40, js "/in/learn-anything/physics.json")]
  /\ (forall f,
        In f [(Examples.doc Examples.token40, js "/in/learn-anything/physics.json")] ->
        token (fst f) = token (Examples.doc Examples.token40) ->
        snd f = js "/in/learn-anything/physics.json")
  /\ pass1 (js "/in")
       [(Examples.doc Examples.token40, js "/in/learn-anything/physics.json")]
     !! Examples.token40 = Some (js "/physics").
Proof.
  split; [left; reflexivity|]. split.
  - intros f [<-|[]] _. reflexivity.
  - apply (pass1_entry (js "/in")
             [(Examples.doc Examples.token40, js "/in/learn-anything/physics.json")]
             (Examples.doc Examples.token40) (js "/in/learn-anything/physics.json")).
    + left. reflexivity.
    + intros f [<-|[]] _. reflexivity.
Defined.

(** C4, counterexample: the first [.json] of the name is in a folder name;
    it is the one removed, and the suffix stays. *)
Lemma pass1_json_in_folder_name :
  pass1 (js "/in") [(Examples.doc Examples.token40, js "/in/a.json.d/b.json")]
  !! Examples.token40 = Some (js "/a.d/b.json")
  /\ spec_relativeFilePath (js "/in") (js "/in/a.json.d/b.json") = js "/a.json.d/b"
  /\ js "/a.d/b.json" <> js "/a.json.d/b".
Proof.
  split; [|split; [reflexivity|discriminate]].
  unfold pass1. cbn [fold_left]. unfold pass1_callback. cbn [fst snd Examples.doc token].
  rewrite lookup_insert_eq. reflexivity.
Qed.

(** C5: a link to a token that no file of the walk carries. *)
Lemma parseNode_unknown_token_witness :
  title (Examples.leaf Examples.internalLink)
  = Some {| rt_text := Examples.internalLink |}
  /\ matchInternalURL (Regex.getURL Examples.internalLink) = Some Examples.token40
  /\ (∅ : gmap jsstring jsstring) !! Examples.token40 = None
  /\ exists p,
       parseNode Regex.getText Regex.getURL ∅
         (Examples.leaf Examples.internalLink) = Ok p
       /\ url p = None.
Proof.
  split; [reflexivity|]. split; [reflexivity|]. split; [reflexivity|].
  apply (parseNode_unknown_token Regex.getText Regex.getURL ∅
           (Examples.leaf Examples.internalLink)
           {| rt_text := Examples.internalLink |} Examples.token40);
    reflexivity.
Defined.

(** C6: a note that ends with the phrase. *)
Lemma parseNode_note_boilerplate_witness :
  title (Examples.noted (js "t") (js "Good book. " ++ boilerplate))
  = Some {| rt_text := js "t" |}
  /\ note (Examples.noted (js "t") (js "Good book. " ++ boilerplate))
     = Some {| rt_text := js "Good book. " ++ boilerplate |}
  /\ exists p,
       parseNode Regex.getText Regex.getURL ∅
         (Examples.noted (js "t") (js "Good book. " ++ boilerplate)) = Ok p
       /\ pn_note p = Some (js "Good book. ").
Proof.
  split; [reflexivity|]. split; [reflexivity|].
  destruct (parseNode_note_boilerplate Regex.getText Regex.getURL ∅
              (Examples.noted (js "t") (js "Good book. " ++ boilerplate))
              _ _ eq_refl eq_refl) as (p & Hp & _ & _ & H).
  exists p. split; [exact Hp|].
  rewrite (H (js "Good book. ") []); reflexivity.
Defined.

(** C6, counterexample: the phrase with one space goes through untouched,
    and of the phrase of the source written twice one copy is left. *)
Lemma parseNode_note_keeps_phrase :
  (exists p,
     parseNode Regex.getText Regex.getURL ∅
       (Examples.noted (js "t") Examples.phraseOneSpace) = Ok p
     /\ pn_note p = Some Examples.phraseOneSpace
     /\ includes Examples.phraseOneSpace Examples.phraseOneSpace = true)
  /\ (exists p,
        parseNode Regex.getText Regex.getURL ∅
          (Examples.noted (js "t") (boilerplate ++ boilerplate)) = Ok p
        /\ includes boilerplate (Regex.getText (boilerplate ++ boilerplate)) = true
        /\ pn_note p = Some boilerplate
        /\ includes boilerplate boilerplate = true).
Proof.
  split; eexists; (split; [reflexivity|]); cbn [pn_note]; repeat split.
Qed.

(** C7, counterexample: a node without a title. *)
Lemma parseNode_untitled_throws :
  title Examples.untitled = None
  /\ parseNode Regex.getText Regex.getURL ∅ Examples.untitled = Throw TypeError.
Proof. split; reflexivity. Qed.

(** C8, counterexample: a title is there, its text is empty, and the parsed
    connection has no [text] where the extracted text would be the empty
    string. *)
Lemma parseConn_empty_title :
  conn_title (Examples.conn (Some {| rt_text := [] |})) = Some {| rt_text := [] |}
  /\ conn_text (parseConn Regex.getText (Examples.conn (Some {| rt_text := [] |})) ∅)
     = None
  /\ conn_text (parseConn Regex.getText (Examples.conn (Some {| rt_text := [] |})) ∅)
     <> Some (Regex.getText []).
Proof. split; [reflexivity|]. split; [reflexivity|discriminate]. Qed.

(** C9, counterexample: the card index dividers are none of the 16 emoji
    listed and have a category; the table has 17 entries, not 15. *)
Lemma emojiToCategory_card_index_dividers :
  Emojis.assoc Emojis.cardIndexDividers Emojis.listedTable = None
  /\ Emojis.emojiToCategory Emojis.cardIndexDividers = js "stack exchange"
  /\ Emojis.emojiToCategory Emojis.cardIndexDividers <> []
  /\ length Emojis.categoryTable <> 15%nat.
Proof.
  split; [reflexivity|]. split; [reflexivity|]. split; discriminate.
Qed.

(** C10: the world map, U+1F5FA, between two letters. *)
Lemma emojiToHTML_surrogate_pair_witness :
  Emojis.isLead 0xD83D = true /\ Emojis.isTrail 0xDDFA = true
  /\ [0xD83D; 0xDDFA] <> Emojis.octopus /\ [0xD83D; 0xDDFA] <> Emojis.robot
  /\ [0xD83D; 0xDDFA] <> Emojis.cardIndexDividers
  /\ Emojis.emojiToHTML (js "a" ++ [0xD83D; 0xDDFA] ++ js "b")
     = js "a<img class=" ++ dq ++ js "mindmap-emoji" ++ dq ++ js " src=" ++ dq
       ++ js "https://assets-cdn.github.com/images/icons/emoji/unicode/1f5fa.png"
       ++ dq ++ js ">b".
Proof.
  split; [reflexivity|]. split; [reflexivity|].
  split; [discriminate|]. split; [discriminate|]. split; [discriminate|].
  apply (emojiToHTML_surrogate_pair (js "a") (js "b") 0xD83D 0xDDFA);
    first [reflexivity | discriminate].
Defined.

(** * Further properties *)

(** ** emojis.js *)

Lemma replaceEmojis_single f c : Emojis.replaceEmojis f [c] = [c].
Proof. reflexivity. Qed.

(** The scan is compositional at any cut that does not fall inside a
    surrogate pair. *)
Lemma replaceEmojis_app f a b :
  (forall a' hi lo b', a = a' ++ [hi] -> b = lo :: b' ->
     Emojis.isLead hi && Emojis.isTrail lo = false) ->
  Emojis.replaceEmojis f (a ++ b)
  = Emojis.replaceEmojis f a ++ Emojis.replaceEmojis f b.
Proof.
  remember (length a) as n eqn:Hn. revert a Hn.
  induction n as [n IH] using lt_wf_ind. intros a Hn Hcut.
  destruct a as [|x [|y a]].
  - reflexivity.
  - destruct b as [|lo b]; [reflexivity|].
    change ([x] ++ lo :: b) with (x :: lo :: b).
    rewrite replaceEmojis_cons2, (Hcut [] x lo b eq_refl eq_refl). reflexivity.
  - change ((x :: y :: a) ++ b) with (x :: y :: (a ++ b)).
    rewrite !(replaceEmojis_cons2 f x y).
    destruct (Emojis.isLead x && Emojis.isTrail y).
    + rewrite (IH (length a)); [|simpl in Hn; lia|reflexivity|].
      * rewrite <- app_assoc. reflexivity.
      * intros a' hi lo b' -> ->. apply (Hcut (x :: y :: a') hi lo b'); reflexivity.
    + change (y :: a ++ b) with ((y :: a) ++ b).
      rewrite (IH (length (y :: a))); [|simpl in *; lia|reflexivity|].
      * reflexivity.
      * intros a' hi lo b' E ->. apply (Hcut (x :: a') hi lo b'); [|reflexivity].
        cbn [app]. rewrite <- E. reflexivity.
Qed.

(** X3: [emojiToHTML] of a concatenation is the concatenation of the two
    conversions whenever the cut does not separate a lead surrogate from the
    trail surrogate that follows it. *)
Theorem emojiToHTML_app (a b : jsstring) :
  (forall a' hi lo b', a = a' ++ [hi] -> b = lo :: b' ->
     Emojis.isLead hi && Emojis.isTrail lo = false) ->
  Emojis.emojiToHTML (a ++ b) = Emojis.emojiToHTML a ++ Emojis.emojiToHTML b.
Proof. apply replaceEmojis_app. Qed.

Lemma emojiToHTML_app_witness :
  (forall a' hi lo b',
      js "see " ++ [0xD83D; 0xDC40] = a' ++ [hi] ->
      [0xD83D; 0xDCD6] ++ js " read" = lo :: b' ->
      Emojis.isLead hi && Emojis.isTrail lo = false)
  /\ Emojis.emojiToHTML ((js "see " ++ [0xD83D; 0xDC40])
                         ++ ([0xD83D; 0xDCD6] ++ js " read"))
     = Emojis.emojiToHTML (js "see " ++ [0xD83D; 0xDC40])
       ++ Emojis.emojiToHTML ([0xD83D; 0xDCD6] ++ js " read").
Proof.
  assert (H : forall a' hi lo b',
             js "see " ++ [0xD83D; 0xDC40] = a' ++ [hi] ->
             [0xD83D; 0xDCD6] ++ js " read" = lo :: b' ->
             Emojis.isLead hi && Emojis.isTrail lo = false).
  { intros a' hi lo b' _ E. injection E as <- _. apply andb_false_r. }
  split; [exact H|].
  apply (emojiToHTML_app (js "see " ++ [0xD83D; 0xDC40])
                         ([0xD83D; 0xDCD6] ++ js " read") H).
Defined.

(** X2: wherever they stand, the octopus, the robot and the card index
    dividers are replaced with their own images: the [octocat] icon of the
    custom template and the two fixed [<img>] tags. *)
Theorem emojiToHTML_special_cases (pre post : jsstring) :
  Emojis.emojiToHTML (pre ++ Emojis.octopus ++ post)
  = Emojis.emojiToHTML pre
    ++ Emojis.customEmojiTemplate (js "octocat")
    ++ Emojis.emojiToHTML post
  /\ Emojis.emojiToHTML (pre ++ Emojis.robot ++ post)
     = Emojis.emojiToHTML pre
       ++ (js "<img class=" ++ dq ++ js "mindmap-emoji reddit-emoji" ++ dq
           ++ js " src=" ++ dq
           ++ js "https://encrypted-tbn0.gstatic.com/images?q=tbn:ANd9GcTNpOQVZdTCyVamjJPl92KjaDHigNWVM8mOLHPRU4DHoVNJWxCg"
           ++ dq ++ js ">")
       ++ Emojis.emojiToHTML post
  /\ Emojis.emojiToHTML (pre ++ Emojis.cardIndexDividers ++ post)
     = Emojis.emojiToHTML pre
       ++ (js "<img class=" ++ dq ++ js "mindmap-emoji" ++ dq ++ js " src=" ++ dq
           ++ js "https://cdn.sstatic.net/Sites/stackoverflow/company/img/logos/se/se-icon.png?v=93426798a1d4"
           ++ dq ++ js ">")
       ++ Emojis.emojiToHTML post.
Proof.
  unfold Emojis.emojiToHTML, Emojis.octopus, Emojis.robot, Emojis.cardIndexDividers.
  repeat split;
    match goal with
    | |- Emojis.replaceEmojis _ (pre ++ [?hi; ?lo] ++ post) = _ =>
        change ([hi; lo] ++ post) with (hi :: lo :: post);
        rewrite (replaceEmojis_app_pair Emojis.emojiImage pre hi lo post eq_refl eq_refl)
    end; reflexivity.
Qed.

(** The image of a surrogate pair is a non-empty string of ASCII. *)
Lemma emojiImage_ascii hi lo :
  Emojis.isLead hi = true -> Emojis.isTrail lo = true ->
  forallb (fun c => c <? 128) (Emojis.emojiImage [hi; lo]) = true
  /\ exists c r, Emojis.emojiImage [hi; lo] = c :: r.
Proof.
  intros Hhi Hlo. unfold Emojis.emojiImage.
  destruct (Emojis.jseq [hi; lo] Emojis.octopus);
    [split; [reflexivity|eexists; eexists; reflexivity]|].
  destruct (Emojis.jseq [hi; lo] Emojis.robot);
    [split; [reflexivity|eexists; eexists; reflexivity]|].
  destruct (Emojis.jseq [hi; lo] Emojis.cardIndexDividers);
    [split; [reflexivity|eexists; eexists; reflexivity]|].
  cbn [nth].
  rewrite (bitand_3FF hi) by (apply isLead_range, Hhi).
  rewrite (bitand_3FF lo) by (apply isTrail_range, Hlo).
  rewrite shl_10 by apply land_3FF_range.
  split; [|eexists; eexists; reflexivity].
  unfold Emojis.emojiTemplate. rewrite !forallb_app.
  destruct (toString16_spec (Z.shiftl (Z.land hi 0x3FF) 10 + Z.land lo 0x3FF))
    as [Hhex _].
  { pose proof (land_3FF_range hi). pose proof (land_3FF_range lo).
    rewrite Z.shiftl_mul_pow2 by lia. lia. }
  assert (Hd : forallb (fun c => c <? 128)
                 (toString16 (Z.shiftl (Z.land hi 0x3FF) 10 + Z.land lo 0x3FF)) = true).
  { rewrite forallb_forall in *. intros c Hc. specialize (Hhex c Hc).
    unfold isLowerHex in Hhex. apply Z.ltb_lt.
    apply orb_prop in Hhex as [H|H]; apply andb_prop in H as [_ H];
      apply Z.leb_le in H; lia. }
  rewrite Hd. reflexivity.
Qed.

Lemma ascii_not_lead c : (c <? 128) = true -> Emojis.isLead c = false.
Proof.
  intros H. apply Z.ltb_lt in H. unfold Emojis.isLead.
  apply andb_false_iff. left. apply Z.leb_gt. lia.
Qed.

Lemma ascii_not_trail c : (c <? 128) = true -> Emojis.isTrail c = false.
Proof.
  intros H. apply Z.ltb_lt in H. unfold Emojis.isTrail.
  apply andb_false_iff. left. apply Z.leb_gt. lia.
Qed.

Lemma matchAll_cons_not_lead c s :
  Emojis.isLead c = false -> Emojis.matchAll (c :: s) = Emojis.matchAll s.
Proof.
  intros H. destruct s as [|d s]; [reflexivity|].
  rewrite matchAll_cons2, H. reflexivity.
Qed.

Lemma matchAll_cons_not_trail c d s :
  Emojis.isTrail d = false ->
  Emojis.matchAll (c :: d :: s) = Emojis.matchAll (d :: s).
Proof. intros H. rewrite matchAll_cons2, H, andb_false_r. reflexivity. Qed.

Lemma matchAll_app_ascii a b :
  forallb (fun c => c <? 128) a = true ->
  Emojis.matchAll (a ++ b) = Emojis.matchAll b.
Proof.
  induction a as [|c a IH]; intros H; [reflexivity|].
  cbn [forallb] in H. apply andb_prop in H as [Hc Ha].
  cbn [app]. rewrite matchAll_cons_not_lead by (apply ascii_not_lead, Hc).
  apply IH, Ha.
Qed.

(** After [emojiToHTML] no match of [matchEmojis] is left. *)
Lemma emojiToHTML_matchAll s :
  Emojis.matchAll (Emojis.emojiToHTML s) = [].
Proof.
  unfold Emojis.emojiToHTML.
  remember (length s) as n eqn:Hn. revert s Hn.
  induction n as [n IH] using lt_wf_ind. intros s Hn.
  destruct s as [|hi [|lo r]]; [reflexivity|reflexivity|].
  rewrite replaceEmojis_cons2.
  destruct (Emojis.isLead hi && Emojis.isTrail lo) eqn:E.
  - apply andb_prop in E as [Hhi Hlo].
    destruct (emojiImage_ascii hi lo Hhi Hlo) as [Hascii _].
    rewrite matchAll_app_ascii by exact Hascii.
    apply (IH (length r)); [simpl in Hn; lia|reflexivity].
  - pose proof (IH (length (lo :: r)) ltac:(simpl in *; lia) (lo :: r) eq_refl) as Hrest.
    destruct r as [|lo2 r].
    + rewrite replaceEmojis_single. rewrite matchAll_cons2, E. reflexivity.
    + rewrite replaceEmojis_cons2 in *.
      destruct (Emojis.isLead lo && Emojis.isTrail lo2) eqn:E2.
      * apply andb_prop in E2 as [Hl Hl2].
        destruct (emojiImage_ascii lo lo2 Hl Hl2) as [Hascii (c & img & Himg)].
        rewrite Himg in *. cbn [app] in *.
        cbn [forallb] in Hascii. apply andb_prop in Hascii as [Hc _].
        rewrite matchAll_cons_not_trail by (apply ascii_not_trail, Hc).
        exact Hrest.
      * rewrite matchAll_cons2, E. exact Hrest.
Qed.

(** X4: the output of [emojiToHTML] holds no surrogate pair: every emoji
    that [matchEmojis] can see has been replaced, and the replacements and
    the code units left around them form no new pair. *)
Theorem emojiToHTML_no_pair_left (html : jsstring) :
  ~ Emojis.hasSurrogatePair (Emojis.emojiToHTML html).
Proof. apply matchAll_empty_iff, emojiToHTML_matchAll. Qed.

(** X1: [emojiToHTML] returns its input unchanged exactly when the input
    holds no lead surrogate right before a trail surrogate; emoji of the
    basic plane, single code units, are thus never converted. *)
Theorem emojiToHTML_unchanged_iff (html : jsstring) :
  Emojis.emojiToHTML html = html <-> ~ Emojis.hasSurrogatePair html.
Proof.
  split.
  - intros E. apply matchAll_empty_iff. rewrite <- E. apply emojiToHTML_matchAll.
  - intros H. apply replaceEmojis_no_match, matchAll_empty_iff, H.
Qed.

(** X19: converting twice is converting once: the images that
    [emojiToHTML] has put in are not touched by a second conversion. *)
Theorem emojiToHTML_idempotent (html : jsstring) :
  Emojis.emojiToHTML (Emojis.emojiToHTML html) = Emojis.emojiToHTML html.
Proof. apply replaceEmojis_no_match, emojiToHTML_matchAll. Qed.

(** Stripping removes the two code units of every match and nothing else. *)
Lemma stripEmojis_length s :
  (length s = length (Emojis.stripEmojis s) + 2 * length (Emojis.matchAll s))%nat.
Proof.
  unfold Emojis.stripEmojis.
  remember (length s) as n eqn:Hn. revert s Hn.
  induction n as [n IH] using lt_wf_ind. intros s Hn.
  destruct s as [|hi [|lo r]]; [subst; reflexivity|subst; reflexivity|].
  rewrite replaceEmojis_cons2, matchAll_cons2.
  destruct (Emojis.isLead hi && Emojis.isTrail lo).
  - pose proof (IH (length r) ltac:(simpl in Hn; lia) r eq_refl) as H.
    rewrite Hn. cbn [length app]. lia.
  - pose proof (IH (length (lo :: r)) ltac:(simpl in *; lia) (lo :: r) eq_refl) as H.
    rewrite Hn. cbn [length] in *. lia.
Qed.

Lemma stripEmojis_sublist s : sublist (Emojis.stripEmojis s) s.
Proof.
  unfold Emojis.stripEmojis.
  remember (length s) as n eqn:Hn. revert s Hn.
  induction n as [n IH] using lt_wf_ind. intros s Hn.
  destruct s as [|hi [|lo r]]; [constructor|reflexivity|].
  rewrite replaceEmojis_cons2.
  destruct (Emojis.isLead hi && Emojis.isTrail lo).
  - cbn [app]. do 2 apply sublist_cons.
    apply (IH (length r)); [simpl in Hn; lia|reflexivity].
  - apply sublist_skip.
    apply (IH (length (lo :: r))); [simpl in *; lia|reflexivity].
Qed.

Lemma matchAll_pairs s :
  Forall (fun m => exists hi lo, m = [hi; lo] /\ Emojis.isLead hi = true
                                 /\ Emojis.isTrail lo = true)
         (Emojis.matchAll s).
Proof.
  remember (length s) as n eqn:Hn. revert s Hn.
  induction n as [n IH] using lt_wf_ind. intros s Hn.
  destruct s as [|hi [|lo r]]; [constructor|constructor|].
  rewrite matchAll_cons2.
  destruct (Emojis.isLead hi && Emojis.isTrail lo) eqn:E.
  - apply andb_prop in E as [Hhi Hlo]. constructor; [eauto|].
    apply (IH (length r)); [simpl in Hn; lia|reflexivity].
  - apply (IH (length (lo :: r))); [simpl in *; lia|reflexivity].
Qed.

(** A piece of text in which the scan finds no match. *)
Lemma matchAll_cons_no_pair hi p :
  Emojis.matchAll p = [] ->
  match p with
  | lo :: _ => Emojis.isLead hi && Emojis.isTrail lo = false
  | [] => True
  end ->
  Emojis.matchAll (hi :: p) = [].
Proof.
  destruct p as [|lo p]; [reflexivity|].
  intros Hp Hn. rewrite matchAll_cons2, Hn. exact Hp.
Qed.

(** The text cut at its matches: a first piece, then every match followed by
    the piece up to the next one. *)
Lemma matchAll_pieces s :
  exists (p0 : jsstring) (l : list (jsstring * jsstring)),
    s = p0 ++ flat_map (fun mp => fst mp ++ snd mp) l
    /\ Emojis.matchAll s = List.map fst l
    /\ Emojis.stripEmojis s = p0 ++ flat_map snd l
    /\ Forall (fun p => Emojis.matchAll p = []) (p0 :: List.map snd l)
    /\ (forall c r, p0 = c :: r -> s = c :: r ++ flat_map (fun mp => fst mp ++ snd mp) l).
Proof.
  unfold Emojis.stripEmojis.
  remember (length s) as n eqn:Hn. revert s Hn.
  induction n as [n IH] using lt_wf_ind. intros s Hn.
  destruct s as [|hi [|lo r]].
  - exists [], []. repeat split; try reflexivity.
    + repeat constructor.
    + intros c r H. discriminate.
  - exists [hi], []. repeat split; try reflexivity.
    + repeat constructor.
    + intros c r H. injection H as <- <-. reflexivity.
  - rewrite replaceEmojis_cons2, matchAll_cons2.
    destruct (Emojis.isLead hi && Emojis.isTrail lo) eqn:E.
    + destruct (IH (length r) ltac:(simpl in Hn; lia) r eq_refl)
        as (p0 & l & Hs & Hm & Hstrip & Hfree & _).
      exists [], (([hi; lo], p0) :: l). cbn [flat_map List.map fst snd app].
      split; [rewrite Hs at 1; reflexivity|].
      split; [rewrite Hm; reflexivity|].
      split; [exact Hstrip|].
      split; [constructor; [reflexivity|exact Hfree]|].
      intros c r' H. discriminate.
    + destruct (IH (length (lo :: r)) ltac:(simpl in *; lia) (lo :: r) eq_refl)
        as (p0 & l & Hs & Hm & Hstrip & Hfree & Hhead).
      exists (hi :: p0), l. cbn [app].
      split; [rewrite Hs at 1; reflexivity|].
      split; [exact Hm|].
      split; [rewrite Hstrip; reflexivity|].
      split.
      * apply Forall_cons_1 in Hfree as [Hp0 Hrest].
        constructor; [|exact Hrest].
        apply matchAll_cons_no_pair; [exact Hp0|].
        destruct p0 as [|c p0]; [exact I|].
        specialize (Hhead c p0 eq_refl). injection Hhead as <- _. exact E.
      * intros c r' H. injection H as <- <-. rewrite Hs at 1. reflexivity.
Qed.

(** X5: what [text.match(matchEmojis)] returns and what
    [text.replace(matchEmojis, '')] removes are the same occurrences: the
    text is a first piece followed by every match, each a lead surrogate with
    a trail surrogate, with the piece that follows it; the matches are the
    result of [match], in order, the pieces put end to end are the stripped
    text, and no piece holds a match of its own. *)
Theorem stripEmojis_removes_matches (s : jsstring) :
  exists (p0 : jsstring) (l : list (jsstring * jsstring)),
    s = p0 ++ flat_map (fun mp => fst mp ++ snd mp) l
    /\ Emojis.matchAll s = List.map fst l
    /\ Emojis.stripEmojis s = p0 ++ flat_map snd l
    /\ Forall (fun p => Emojis.matchAll p = []) (p0 :: List.map snd l)
    /\ Forall (fun m => exists hi lo, m = [hi; lo] /\ Emojis.isLead hi = true
                                      /\ Emojis.isTrail lo = true)
              (List.map fst l)
    /\ (length s
        = length (Emojis.stripEmojis s) + 2 * length (Emojis.matchAll s))%nat.
Proof.
  destruct (matchAll_pieces s) as (p0 & l & Hs & Hm & Hstrip & Hfree & _).
  exists p0, l. split; [exact Hs|]. split; [exact Hm|].
  split; [exact Hstrip|]. split; [exact Hfree|].
  split; [rewrite <- Hm; apply matchAll_pairs|apply stripEmojis_length].
Qed.

(** [emojiToCategory] as a lookup in the table. *)
Lemma emojiToCategory_assoc emoji :
  Emojis.emojiToCategory emoji
  = default [] (Emojis.assoc emoji Emojis.categoryTable).
Proof.
  unfold Emojis.emojiToCategory, Emojis.categoryTable. cbn [Emojis.assoc].
  repeat (destruct (Emojis.jseq emoji _); [reflexivity|]).
  reflexivity.
Qed.

Lemma assoc_In k v tbl : Emojis.assoc k tbl = Some v -> In (k, v) tbl.
Proof.
  induction tbl as [|[k' v'] tbl IH]; [discriminate|].
  cbn [Emojis.assoc]. unfold Emojis.jseq. case_bool_decide as E.
  - intros H. injection H as <-. subst k'. left. reflexivity.
  - intros H. right. apply IH, H.
Qed.

Lemma In_snd_unique {A B : Type} (l : list (A * B)) a1 a2 b :
  NoDup (List.map snd l) -> In (a1, b) l -> In (a2, b) l -> a1 = a2.
Proof.
  induction l as [|[a' b'] l IH]; intros Hnd H1 H2; [destruct H1|].
  cbn [List.map snd] in Hnd. apply NoDup_cons in Hnd as [Hnotin Hnd].
  assert (Hin : forall a, In (a, b) l -> b ∈ List.map snd l).
  { intros a Ha. apply list_elem_of_In, in_map_iff. exists (a, b). auto. }
  destruct H1 as [E1|H1], H2 as [E2|H2].
  - congruence.
  - injection E1 as -> ->. exfalso. apply Hnotin, (Hin a2 H2).
  - injection E2 as -> ->. exfalso. apply Hnotin, (Hin a1 H1).
  - apply IH; assumption.
Qed.

(** X6: an emoji has a category only if it is one of the 17 two-unit
    strings of the [switch], and two emoji that have the same category are
    the same emoji: the category tells the marker. *)
Theorem emojiToCategory_injective (e1 e2 : jsstring) :
  Emojis.emojiToCategory e1 <> [] ->
  Emojis.emojiToCategory e1 = Emojis.emojiToCategory e2 ->
  e1 = e2 /\ In e1 (List.map fst Emojis.categoryTable) /\ length e1 = 2%nat.
Proof.
  intros Hne E. rewrite E in Hne. rewrite !emojiToCategory_assoc in *.
  destruct (Emojis.assoc e1 Emojis.categoryTable) as [c1|] eqn:A1;
    [|exfalso; apply Hne; rewrite <- E; reflexivity].
  destruct (Emojis.assoc e2 Emojis.categoryTable) as [c2|] eqn:A2;
    [|exfalso; apply Hne; reflexivity].
  simpl in E. subst c2.
  apply assoc_In in A1, A2.
  assert (Hk : In e1 (List.map fst Emojis.categoryTable)).
  { apply in_map_iff. exists (e1, c1). auto. }
  split; [|split; [exact Hk|]].
  - apply (In_snd_unique Emojis.categoryTable e1 e2 c1); [|exact A1|exact A2].
    apply (bool_decide_unpack _). vm_compute. reflexivity.
  - revert Hk. generalize e1. apply List.Forall_forall.
    repeat constructor.
Qed.

Lemma emojiToCategory_injective_witness :
  Emojis.emojiToCategory [0xD83D; 0xDC40] <> []
  /\ Emojis.emojiToCategory [0xD83D; 0xDC40] = Emojis.emojiToCategory [0xD83D; 0xDC40]
  /\ length [0xD83D; 0xDC40] = 2%nat.
Proof.
  split; [discriminate|]. split; [reflexivity|].
  apply (emojiToCategory_injective [0xD83D; 0xDC40] [0xD83D; 0xDC40]);
    [discriminate|reflexivity].
Defined.

(** *** The file name of an image and the code point of the emoji *)

Lemma toHexAux_S fuel n acc :
  toHexAux (S fuel) n acc
  = if n / 16 =? 0 then hexDigit (n mod 16) :: acc
    else toHexAux fuel (n / 16) (hexDigit (n mod 16) :: acc).
Proof. reflexivity. Qed.

Lemma toHexAux_acc fuel :
  forall n acc, toHexAux fuel n acc = toHexAux fuel n [] ++ acc.
Proof.
  induction fuel as [|fuel IH]; intros n acc; [reflexivity|].
  rewrite !toHexAux_S. destruct (n / 16 =? 0); [reflexivity|].
  rewrite (IH (n / 16) (hexDigit (n mod 16) :: acc)).
  rewrite (IH (n / 16) [hexDigit (n mod 16)]).
  rewrite <- app_assoc. reflexivity.
Qed.

Lemma toHexAux_more_fuel fuel :
  forall n, (1 <= fuel)%nat -> 0 <= n < 16 ^ Z.of_nat fuel ->
    toHexAux (S fuel) n [] = toHexAux fuel n [].
Proof.
  induction fuel as [|fuel IH]; intros n Hf Hn; [lia|].
  rewrite (toHexAux_S (S fuel) n), (toHexAux_S fuel n []).
  destruct (n / 16 =? 0) eqn:E; [reflexivity|].
  apply Z.eqb_neq in E.
  assert (Hq : 0 <= n / 16 < 16 ^ Z.of_nat fuel).
  { split; [apply Z.div_pos; lia|].
    apply Z.div_lt_upper_bound; [lia|].
    rewrite Nat2Z.inj_succ, Z.pow_succ_r in Hn by lia. lia. }
  assert (Hf' : (1 <= fuel)%nat).
  { destruct fuel; [|lia]. change (16 ^ Z.of_nat 0) with 1 in Hq. lia. }
  rewrite (toHexAux_acc (S fuel)), (toHexAux_acc fuel).
  f_equal. apply IH; assumption.
Qed.

Lemma toHexAux_any_fuel fuel k n :
  (1 <= fuel)%nat -> 0 <= n < 16 ^ Z.of_nat fuel ->
  toHexAux (k + fuel) n [] = toHexAux fuel n [].
Proof.
  intros Hf Hn. induction k as [|k IH]; [reflexivity|].
  cbn [Nat.add]. rewrite toHexAux_more_fuel; [exact IH|lia|].
  split; [lia|]. apply Z.lt_le_trans with (16 ^ Z.of_nat fuel); [lia|].
  apply Z.pow_le_mono_r; lia.
Qed.

Lemma toString16_fuel_bound n :
  0 <= n -> n < 16 ^ Z.of_nat (S (Z.to_nat (Z.log2 n))).
Proof.
  intros Hn. rewrite Nat2Z.inj_succ, Z2Nat.id by apply Z.log2_nonneg.
  destruct (Z.eq_dec n 0) as [->|Hne]; [reflexivity|].
  apply Z.lt_le_trans with (2 ^ Z.succ (Z.log2 n)).
  - apply Z.log2_spec. lia.
  - apply Z.pow_le_mono_l. pose proof (Z.log2_nonneg n). lia.
Qed.

(** Any fuel that covers the number gives the writing of [toString16]. *)
Lemma toHexAux_enough fuel n :
  (1 <= fuel)%nat -> 0 <= n < 16 ^ Z.of_nat fuel ->
  toHexAux fuel n [] = toString16 n.
Proof.
  intros Hf Hn. unfold toString16.
  replace (n <? 0) with false by (symmetry; apply Z.ltb_ge; lia).
  rewrite <- (toHexAux_any_fuel fuel (S (Z.to_nat (Z.log2 n))) n Hf Hn).
  rewrite Nat.add_comm. apply toHexAux_any_fuel; [lia|].
  split; [lia|]. apply toString16_fuel_bound. lia.
Qed.

Lemma toString16_digit d : 0 <= d < 16 -> toString16 d = [hexDigit d].
Proof.
  intros H. rewrite <- (toHexAux_enough 1 d); [|lia|exact H].
  rewrite toHexAux_S. rewrite Z.div_small, Z.mod_small by lia. reflexivity.
Qed.

Lemma toString16_step n :
  16 <= n -> toString16 n = toString16 (n / 16) ++ [hexDigit (n mod 16)].
Proof.
  intros Hn.
  pose proof (toString16_fuel_bound n ltac:(lia)) as Hb.
  set (k := Z.to_nat (Z.log2 n)) in *.
  assert (Hq : 0 <= n / 16 < 16 ^ Z.of_nat k).
  { split; [apply Z.div_pos; lia|].
    apply Z.div_lt_upper_bound; [lia|].
    rewrite Nat2Z.inj_succ, Z.pow_succ_r in Hb by lia. lia. }
  assert (Hne : n / 16 <> 0).
  { pose proof (Z.div_le_lower_bound n 16 1 ltac:(lia) ltac:(lia)). lia. }
  assert (Hk : (1 <= k)%nat).
  { destruct k; [|lia]. change (16 ^ Z.of_nat 0) with 1 in Hq. lia. }
  rewrite <- (toHexAux_enough (S k) n); [|lia|lia].
  rewrite toHexAux_S. apply Z.eqb_neq in Hne. rewrite Hne.
  rewrite toHexAux_acc. f_equal. apply toHexAux_enough; assumption.
Qed.

(** A leading 1 in front of a writing of [S j] digits. *)
Lemma toString16_one_prefix j :
  forall v, 16 ^ Z.of_nat j <= v < 16 ^ Z.of_nat (S j) ->
    toString16 (16 ^ Z.of_nat (S j) + v) = js "1" ++ toString16 v.
Proof.
  induction j as [|j IH]; intros v Hv.
  - change (16 ^ Z.of_nat 0) with 1 in Hv. change (16 ^ Z.of_nat 1) with 16 in *.
    rewrite toString16_step by lia.
    replace ((16 + v) / 16) with 1
      by (apply Z.div_unique with v; lia).
    replace ((16 + v) mod 16) with v
      by (apply Z.mod_unique with 1; lia).
    rewrite (toString16_digit v) by lia. reflexivity.
  - assert (H16 : 0 < 16 ^ Z.of_nat j) by (apply Z.pow_pos_nonneg; lia).
    assert (E1 : 16 ^ Z.of_nat (S j) = 16 * 16 ^ Z.of_nat j)
      by (rewrite Nat2Z.inj_succ, Z.pow_succ_r by lia; reflexivity).
    assert (E2 : 16 ^ Z.of_nat (S (S j)) = 16 * 16 ^ Z.of_nat (S j))
      by (rewrite (Nat2Z.inj_succ (S j)), Z.pow_succ_r by lia; reflexivity).
    pose proof (Z.div_mod v 16 ltac:(lia)) as Hdm.
    pose proof (Z.mod_pos_bound v 16 ltac:(lia)) as Hm.
    rewrite toString16_step by lia.
    replace ((16 ^ Z.of_nat (S (S j)) + v) / 16)
      with (16 ^ Z.of_nat (S j) + v / 16)
      by (apply Z.div_unique with (v mod 16); lia).
    replace ((16 ^ Z.of_nat (S (S j)) + v) mod 16) with (v mod 16)
      by (apply Z.mod_unique with (16 ^ Z.of_nat (S j) + v / 16); lia).
    rewrite (toString16_step v) by lia.
    rewrite IH by lia. rewrite <- app_assoc. reflexivity.
Qed.

Lemma toString16_length_le j :
  forall v, 0 <= v < 16 ^ Z.of_nat (S j) ->
    (length (toString16 v) <= S j)%nat.
Proof.
  induction j as [|j IH]; intros v Hv.
  - change (16 ^ Z.of_nat 1) with 16 in Hv. rewrite toString16_digit by lia.
    reflexivity.
  - destruct (Z_lt_le_dec v 16) as [Hlt|Hge].
    + rewrite toString16_digit by lia. cbn [length]. lia.
    + rewrite toString16_step by lia. rewrite length_app. cbn [length].
      assert (Hq : 0 <= v / 16 < 16 ^ Z.of_nat (S j)).
      { split; [apply Z.div_pos; lia|].
        apply Z.div_lt_upper_bound; [lia|].
        rewrite (Nat2Z.inj_succ (S j)), Z.pow_succ_r in Hv by lia. lia. }
      specialize (IH _ Hq). lia.
Qed.

Lemma hexValue_snoc s c : hexValue (s ++ [c]) = 16 * hexValue s + hexDigitValue c.
Proof. unfold hexValue. rewrite fold_left_app. reflexivity. Qed.

Lemma hexValue_app a s :
  hexValue (a ++ s) = hexValue a * 16 ^ Z.of_nat (length s) + hexValue s.
Proof.
  induction s as [|c s IH] using rev_ind.
  - rewrite app_nil_r. change (16 ^ Z.of_nat (length [])) with 1.
    unfold hexValue at 3. cbn [fold_left]. lia.
  - rewrite app_assoc, !hexValue_snoc, IH, length_app. cbn [length].
    rewrite Nat.add_1_r, Nat2Z.inj_succ, Z.pow_succ_r by lia. lia.
Qed.

Lemma hexValue_bound s :
  forallb isLowerHex s = true -> 0 <= hexValue s < 16 ^ Z.of_nat (length s).
Proof.
  induction s as [|c s IH] using rev_ind; intros H.
  - unfold hexValue. cbn. lia.
  - rewrite forallb_app in H. apply andb_prop in H as [Hs Hc].
    cbn [forallb] in Hc. rewrite andb_true_r in Hc.
    specialize (IH Hs). rewrite hexValue_snoc, length_app. cbn [length].
    rewrite Nat.add_1_r, Nat2Z.inj_succ, Z.pow_succ_r by lia.
    assert (Hd : 0 <= hexDigitValue c < 16).
    { unfold isLowerHex in Hc. unfold hexDigitValue.
      apply orb_prop in Hc as [Hc|Hc]; apply andb_prop in Hc as [H1 H2];
        apply Z.leb_le in H1, H2.
      - replace (c <? 58) with true by (symmetry; apply Z.ltb_lt; lia). lia.
      - replace (c <? 58) with false by (symmetry; apply Z.ltb_ge; lia). lia. }
    lia.
Qed.

Lemma emojiTemplate_inj a b :
  Emojis.emojiTemplate a = Emojis.emojiTemplate b -> a = b.
Proof.
  unfold Emojis.emojiTemplate. intros H.
  do 7 apply app_inv_head in H. apply app_inv_tail in H. exact H.
Qed.

Lemma land_3FF_lead hi :
  Emojis.isLead hi = true -> Z.land hi 0x3FF = hi - 0xD800.
Proof.
  intros H. unfold Emojis.isLead in H. apply andb_prop in H as [H1 H2].
  apply Z.leb_le in H1, H2.
  change 0x3FF with (Z.ones 10). rewrite Z.land_ones by lia.
  symmetry. apply Z.mod_unique with 54; lia.
Qed.

Lemma land_3FF_trail lo :
  Emojis.isTrail lo = true -> Z.land lo 0x3FF = lo - 0xDC00.
Proof.
  intros H. unfold Emojis.isTrail in H. apply andb_prop in H as [H1 H2].
  apply Z.leb_le in H1, H2.
  change 0x3FF with (Z.ones 10). rewrite Z.land_ones by lia.
  symmetry. apply Z.mod_unique with 55; lia.
Qed.

(** X7: for an emoji that is not one of the three special cases, the number
    that [emojiToHTML] writes after the "1" is the code point of the emoji
    less 0x10000, and the file name of the image is the hexadecimal writing
    of the code point exactly for the code points from U+11000 to U+1FFFF:
    below and above, "1" and the digits are another number. *)
Theorem emojiToHTML_file_name (hi lo : Z) :
  Emojis.isLead hi = true -> Emojis.isTrail lo = true ->
  [hi; lo] <> Emojis.octopus -> [hi; lo] <> Emojis.robot ->
  [hi; lo] <> Emojis.cardIndexDividers ->
  Emojis.emojiToHTML [hi; lo]
  = Emojis.emojiTemplate (js "1" ++ toString16 (codePoint hi lo - 0x10000))
  /\ (Emojis.emojiToHTML [hi; lo]
      = Emojis.emojiTemplate (toString16 (codePoint hi lo))
      <-> 0x11000 <= codePoint hi lo <= 0x1FFFF).
Proof.
  intros Hhi Hlo H1 H2 H3.
  assert (E : Emojis.emojiToHTML [hi; lo]
              = Emojis.emojiTemplate
                  (js "1" ++ toString16 (codePoint hi lo - 0x10000))).
  { unfold Emojis.emojiToHTML. rewrite replaceEmojis_cons2, Hhi, Hlo.
    cbn [andb Emojis.replaceEmojis]. rewrite app_nil_r.
    rewrite emojiImage_generic by assumption.
    rewrite (land_3FF_lead hi Hhi), (land_3FF_trail lo Hlo).
    pose proof (isLead_range hi Hhi). pose proof (isTrail_range lo Hlo).
    rewrite Z.shiftl_mul_pow2 by lia. unfold codePoint.
    do 3 f_equal. lia. }
  split; [exact E|]. rewrite E.
  assert (Hv : 0 <= codePoint hi lo - 0x10000).
  { unfold Emojis.isLead, Emojis.isTrail in *.
    apply andb_prop in Hhi as [A1 A2]. apply andb_prop in Hlo as [B1 B2].
    apply Z.leb_le in A1, A2, B1, B2. unfold codePoint. lia. }
  set (v := codePoint hi lo - 0x10000) in *.
  replace (codePoint hi lo) with (0x10000 + v) by (unfold v; lia).
  destruct (toString16_spec v Hv) as [Hhex Hval].
  destruct (toString16_spec (0x10000 + v) ltac:(lia)) as [_ Hval'].
  split.
  - intros Heq. apply emojiTemplate_inj in Heq.
    apply (f_equal hexValue) in Heq.
    rewrite (hexValue_app (js "1")), Hval, Hval' in Heq.
    change (hexValue (js "1")) with 1 in Heq.
    assert (Hlen : Z.of_nat (length (toString16 v)) = 4).
    { apply (Z.pow_inj_r 16); [lia|lia|lia|].
      change (16 ^ 4) with 0x10000. lia. }
    pose proof (hexValue_bound _ Hhex) as Hb. rewrite Hval, Hlen in Hb.
    change (16 ^ 4) with 0x10000 in Hb.
    destruct (Z_lt_le_dec v 0x1000) as [Hsmall|Hbig]; [|lia].
    pose proof (toString16_length_le 2 v ltac:(change (16 ^ Z.of_nat 3) with 0x1000; lia)).
    lia.
  - intros Hrange. f_equal.
    change 0x10000 with (16 ^ Z.of_nat 4). symmetry.
    apply toString16_one_prefix.
    change (16 ^ Z.of_nat 3) with 0x1000. change (16 ^ Z.of_nat 4) with 0x10000. lia.
Qed.

Lemma emojiToHTML_file_name_witness :
  Emojis.isLead 0xD83D = true /\ Emojis.isTrail 0xDDFA = true
  /\ [0xD83D; 0xDDFA] <> Emojis.octopus /\ [0xD83D; 0xDDFA] <> Emojis.robot
  /\ [0xD83D; 0xDDFA] <> Emojis.cardIndexDividers
  /\ Emojis.emojiToHTML [0xD83D; 0xDDFA]
     = Emojis.emojiTemplate (toString16 (codePoint 0xD83D 0xDDFA)).
Proof.
  split; [reflexivity|]. split; [reflexivity|].
  split; [discriminate|]. split; [discriminate|]. split; [discriminate|].
  apply (emojiToHTML_file_name 0xD83D 0xDDFA);
    first [reflexivity | discriminate | (unfold codePoint; lia)].
Defined.

(** ** The parser *)

Lemma matchInternalURL_eq s :
  matchInternalURL s =
  if startsWith (js "/id/") s && (length (take 40 (drop 4 s)) =? 40)%nat
     && forallb (fun c => negb (isWhiteSpace c)) (take 40 (drop 4 s))
  then Some (take 40 (drop 4 s))
  else match s with
       | [] => None
       | _ :: r => matchInternalURL r
       end.
Proof. destruct s; reflexivity. Qed.

(** No occurrence of the pattern starts inside [a] when [a] followed by the
    pattern less its last code unit does not include it. *)
Lemma startsWith_before_first pat a b :
  pat <> [] -> a <> [] ->
  includes pat (a ++ removelast pat) = false ->
  startsWith pat (a ++ pat ++ b) = false.
Proof.
  intros Hpat Ha H.
  destruct (startsWith pat (a ++ pat ++ b)) eqn:E; [|reflexivity].
  apply includes_false_startsWith in H.
  rewrite (app_removelast_last 0 Hpat) in E at 2.
  rewrite <- app_assoc, app_assoc in E.
  apply (startsWith_prefix _ _ _ []) in E.
  - rewrite app_nil_r in E. congruence.
  - rewrite (app_removelast_last 0 Hpat) at 1.
    rewrite !length_app. destruct a; [congruence|]. simpl. lia.
Qed.

Lemma matchInternalURL_at tok b :
  length tok = 40%nat ->
  forallb (fun c => negb (isWhiteSpace c)) tok = true ->
  matchInternalURL (js "/id/" ++ tok ++ b) = Some tok.
Proof.
  intros Hlen Hws. rewrite matchInternalURL_eq.
  rewrite startsWith_app.
  assert (D : drop 4 (js "/id/" ++ tok ++ b) = tok ++ b)
    by apply (drop_app_length (js "/id/")).
  assert (E : take 40 (tok ++ b) = tok)
    by (rewrite <- Hlen; apply take_app_length).
  rewrite D, E, Hlen, Hws. reflexivity.
Qed.

(** The first [/id/] of the string, when 40 code units that are not white
    space follow it, is the match. *)
Lemma matchInternalURL_first a tok b :
  length tok = 40%nat ->
  forallb (fun c => negb (isWhiteSpace c)) tok = true ->
  includes (js "/id/") (a ++ js "/id") = false ->
  matchInternalURL (a ++ js "/id/" ++ tok ++ b) = Some tok.
Proof.
  intros Hlen Hws. induction a as [|c a IH]; intros H.
  - apply matchInternalURL_at; assumption.
  - rewrite matchInternalURL_eq.
    rewrite (startsWith_before_first (js "/id/") (c :: a) (tok ++ b));
      [|discriminate|discriminate|exact H].
    cbn [andb app]. apply IH. eapply includes_false_tail, H.
Qed.

Lemma matchInternalURL_complete s :
  hasInternalToken s -> matchInternalURL s <> None.
Proof.
  intros (a & tok & b & -> & Hlen & Hws).
  induction a as [|c a IH].
  - rewrite app_nil_l, matchInternalURL_at by assumption. discriminate.
  - rewrite matchInternalURL_eq.
    destruct (startsWith (js "/id/") ((c :: a) ++ js "/id/" ++ tok ++ b)
              && (length (take 40 (drop 4 ((c :: a) ++ js "/id/" ++ tok ++ b))) =? 40)%nat
              && forallb (fun c => negb (isWhiteSpace c))
                   (take 40 (drop 4 ((c :: a) ++ js "/id/" ++ tok ++ b))));
      [discriminate|exact IH].
Qed.

Lemma result_cases {A : Type} (r : result A) :
  (exists a, r = Ok a) \/ r = Throw TypeError.
Proof. destruct r as [a|[]]; eauto. Qed.

Lemma forEachPush_throw {A B : Type} (f : A -> result (list B)) (l : list A) a :
  In a l -> f a = Throw TypeError -> forEachPush f l = Throw TypeError.
Proof.
  induction l as [|b l IH]; intros Hin Ha; [destruct Hin|].
  cbn [forEachPush]. destruct (result_cases (f b)) as [[bs Hb]|Hb];
    rewrite Hb; [|reflexivity].
  cbn [mbind result_bind]. destruct Hin as [->|Hin]; [congruence|].
  rewrite (IH Hin Ha). reflexivity.
Qed.

Lemma mapM_throw {A B : Type} (f : A -> result B) (l : list A) a :
  In a l -> f a = Throw TypeError -> mapM f l = Throw TypeError.
Proof.
  induction l as [|b l IH]; intros Hin Ha; [destruct Hin|].
  cbn [mapM]. destruct (result_cases (f b)) as [[bs Hb]|Hb];
    rewrite Hb; [|reflexivity].
  cbn [mbind result_bind]. destruct Hin as [->|Hin]; [congruence|].
  rewrite (IH Hin Ha). reflexivity.
Qed.

Lemma forallb_false_In {A : Type} (f : A -> bool) (l : list A) :
  forallb f l = false -> exists a, In a l /\ f a = false.
Proof.
  induction l as [|b l IH]; [discriminate|].
  cbn [forallb]. intros H. apply andb_false_iff in H as [H|H].
  - exists b. split; [left; reflexivity|exact H].
  - destruct (IH H) as (a & Ha & Hf). exists a. split; [right; exact Ha|exact Hf].
Qed.

(** X12: a file under the folder [/learn-anything] of the input gets the
    path it has inside that folder, the same path as a file of that name
    directly under the input folder; the file [/learn-anything.json] itself
    keeps the path [/learn-anything]. *)
Theorem relativeFilePath_learn_anything (base rest : jsstring) :
  rest <> [] ->
  includes (js ".json") ((sentinel ++ rest) ++ removelast (js ".json")) = false ->
  includes sentinel rest = false ->
  relativeFilePath base (base ++ (sentinel ++ rest) ++ js ".json") = rest
  /\ relativeFilePath base (base ++ rest ++ js ".json") = rest
  /\ relativeFilePath base (base ++ sentinel ++ js ".json") = sentinel.
Proof.
  intros Hrest Hjson Hsent. split; [|split].
  - destruct (relativeFilePath_plain base (sentinel ++ rest) Hjson) as [E _].
    rewrite E. rewrite bool_decide_eq_true_2.
    + rewrite removeFirst_eq, startsWith_app, drop_app_length. reflexivity.
    + intros H. apply (f_equal (@length Z)) in H. rewrite length_app in H.
      destruct rest; [congruence|]. cbn [length] in H. lia.
  - assert (Hj : includes (js ".json") (rest ++ removelast (js ".json")) = false).
    { revert Hjson. rewrite <- app_assoc. generalize (rest ++ removelast (js ".json")).
      intros u. unfold sentinel.
      repeat (let H := fresh in
              intros H; apply includes_false_tail in H; revert H).
      intros H; exact H. }
    destruct (relativeFilePath_plain base rest Hj) as [E _].
    rewrite E. destruct (bool_decide (rest <> sentinel)); [|reflexivity].
    apply removeFirst_absent, Hsent.
  - destruct (relativeFilePath_plain base sentinel eq_refl) as [E _].
    rewrite E. reflexivity.
Qed.

Section ParserFurther.

Context {value : Type}.
Variable getText : jsstring -> jsstring.
Variable getURL : jsstring -> jsstring.

(** X8: a node whose extracted URL holds no [/id/] followed by 40 code
    units that are not white space keeps that URL; otherwise the URL is
    replaced with the table entry ([undefined] when there is none) of such a
    token of the URL, the one after the first [/id/] when 40 such code units
    follow it, cut after 40 code units whatever comes next. *)
Theorem parseNode_url (lk : gmap jsstring jsstring) (node : RawNode value)
    (t : RichText) :
  title node = Some t ->
  exists p, parseNode getText getURL lk node = Ok p
    /\ (~ hasInternalToken (getURL (rt_text t)) ->
        url p = Some (getURL (rt_text t)))
    /\ (hasInternalToken (getURL (rt_text t)) ->
        exists a tok b,
          getURL (rt_text t) = a ++ js "/id/" ++ tok ++ b
          /\ length tok = 40%nat
          /\ forallb (fun c => negb (isWhiteSpace c)) tok = true
          /\ url p = lk !! tok)
    /\ (forall a tok b,
          getURL (rt_text t) = a ++ js "/id/" ++ tok ++ b ->
          length tok = 40%nat ->
          forallb (fun c => negb (isWhiteSpace c)) tok = true ->
          includes (js "/id/") (a ++ js "/id") = false ->
          url p = lk !! tok).
Proof.
  intros Ht.
  destruct (parseNode_titled getText getURL lk node t Ht)
    as (p & Hp & _ & _ & _ & Hurl & _).
  exists p. split; [exact Hp|]. split; [|split].
  - intros Hno.
    destruct (matchInternalURL (getURL (rt_text t))) as [tok|] eqn:Hm; [|auto].
    exfalso. apply Hno.
    destruct (matchInternalURL_Some _ _ Hm) as (Hl & Hw & a & b & E).
    exists a, tok, b. auto.
  - intros Hi. apply matchInternalURL_complete in Hi.
    destruct (matchInternalURL (getURL (rt_text t))) as [tok|] eqn:Hm; [|congruence].
    destruct (matchInternalURL_Some _ _ Hm) as (Hl & Hw & a & b & E).
    exists a, tok, b. auto.
  - intros a tok b E Hl Hw Hfirst.
    rewrite Hurl, E, matchInternalURL_first by assumption. reflexivity.
Qed.

(** X9: when a node has a title and the extracted text holds a surrogate
    pair, the text of the parsed node neither begins nor ends with white
    space. *)
Theorem parseNode_text_trimmed (lk : gmap jsstring jsstring)
    (node : RawNode value) (t : RichText) :
  title node = Some t ->
  Emojis.hasSurrogatePair (getText (rt_text t)) ->
  exists p, parseNode getText getURL lk node = Ok p
    /\ text p = trim (Emojis.stripEmojis (getText (rt_text t)))
    /\ (forall c r, text p = c :: r -> isWhiteSpace c = false)
    /\ (forall c r, text p = r ++ [c] -> isWhiteSpace c = false).
Proof.
  intros Ht Hpair.
  destruct (parseNode_titled getText getURL lk node t Ht)
    as (p & Hp & Htext & _).
  exists p. split; [exact Hp|].
  apply matchAll_nonempty in Hpair.
  destruct (Emojis.matchAll (getText (rt_text t))) as [|m ms]; [congruence|].
  split; [exact Htext|]. rewrite Htext.
  destruct (trim_spec (Emojis.stripEmojis (getText (rt_text t))))
    as (l & r & _ & _ & _ & Hhead & Hlast).
  split; assumption.
Qed.

(** *** Pass 1 *)

Lemma pass1_fold_None (base : jsstring) (files : list (RawMap value * jsstring))
    (m : gmap jsstring jsstring) (k : jsstring) :
  fold_left (pass1_callback base) files m !! k = None
  <-> m !! k = None /\ Forall (fun f => token (fst f) <> k) files.
Proof.
  revert m. induction files as [|f files IH]; intros m.
  - cbn [fold_left]. split; [intros H; split; [exact H|constructor]|intros [H _]; exact H].
  - cbn [fold_left]. rewrite IH. unfold pass1_callback. split.
    + intros [Hm Hall].
      destruct (decide (token (fst f) = k)) as [E|E].
      * rewrite E, lookup_insert_eq in Hm. discriminate.
      * rewrite lookup_insert_ne in Hm by exact E.
        split; [exact Hm|constructor; assumption].
    + intros [Hm Hall]. apply Forall_cons_1 in Hall as [Hf Hall].
      rewrite lookup_insert_ne by exact Hf. split; assumption.
Qed.

(** X10: after the first pass a token has an entry in the table exactly
    when some file of the walk carries it: a link to the token of no file
    finds nothing. *)
Theorem pass1_domain (base : jsstring) (files : list (RawMap value * jsstring))
    (tok : jsstring) :
  pass1 base files !! tok = None
  <-> Forall (fun f => token (fst f) <> tok) files.
Proof.
  unfold pass1. rewrite pass1_fold_None. rewrite lookup_empty.
  split; [intros [_ H]; exact H|intros H; split; [reflexivity|exact H]].
Qed.

(** X11: when several files of the walk carry the same token, the entry is
    the path of the last of them: each call of the callback overwrites the
    entry. *)
Theorem pass1_last_wins (base : jsstring) (before after : list (RawMap value * jsstring))
    (f : RawMap value * jsstring) :
  Forall (fun g => token (fst g) <> token (fst f)) after ->
  pass1 base (before ++ f :: after) !! token (fst f)
  = Some (relativeFilePath base (snd f)).
Proof.
  intros Hafter. unfold pass1. rewrite fold_left_app. cbn [fold_left].
  apply pass1_preserve.
  - unfold pass1_callback. apply lookup_insert_eq.
  - intros g Hg Htok. exfalso.
    rewrite List.Forall_forall in Hafter. exact (Hafter g Hg Htok).
Qed.

(** X13: the two passes together: a node whose extracted URL matches the
    internal-link pattern with the token of a file of the walk gets as its
    URL the relative path that the first pass computed for that file (files
    that share a token sharing their name). *)
Theorem link_resolution (base : jsstring) (files : list (RawMap value * jsstring))
    (map : RawMap value) (filename : jsstring) (node : RawNode value)
    (t : RichText) :
  In (map, filename) files ->
  (forall f, In f files -> token (fst f) = token map -> snd f = filename) ->
  title node = Some t ->
  matchInternalURL (getURL (rt_text t)) = Some (token map) ->
  exists p, parseNode getText getURL (pass1 base files) node = Ok p
            /\ url p = Some (relativeFilePath base filename).
Proof.
  intros Hin Hfun Ht Hm.
  destruct (parseNode_titled getText getURL (pass1 base files) node t Ht)
    as (p & Hp & _ & _ & _ & Hurl & _).
  exists p. split; [exact Hp|]. rewrite Hurl, Hm.
  apply in_split in Hin as (l1 & l2 & ->).
  unfold pass1. rewrite fold_left_app. cbn [fold_left].
  apply pass1_preserve.
  - unfold pass1_callback. cbn [fst snd]. apply lookup_insert_eq.
  - intros f Hf Htok. f_equal. apply Hfun; [|exact Htok].
    apply in_or_app. right. right. exact Hf.
Qed.

(** *** Pass 2 *)

(** The parsed map of a document all of whose nodes have a title. *)
Lemma parseMap_titled (lk : gmap jsstring jsstring) (map : RawMap value) :
  forallb titled (map_nodes map) = true ->
  exists pns subs,
    Forall2 (fun n p => parseNode getText getURL lk n = Ok p) (map_nodes map) pns
    /\ Forall2 (fun fs s => parseSubnode getText getURL lk fs = Ok s)
               (flat_map (flat_below getText getURL lk) (map_nodes map)) subs
    /\ parseMap getText getURL lk map
       = Ok {| pm_title := map_title map; pm_nodes := pns; pm_subnodes := subs;
               pm_connections :=
                 List.map (fun conn => parseConn getText conn
                                         (nodesLookup_of (map_nodes map) pns))
                          (map_connections map) |}.
Proof.
  intros HF. set (F := map_nodes map) in *.
  pose proof (subnodes_filed getText getURL lk F) as Hfiled.
  destruct (mapM_Forall2 (parseNode getText getURL lk) F) as (pns & Hpns & Hnodes).
  { apply List.Forall_forall. intros n Hn.
    rewrite forallb_forall in HF.
    destruct (parseNode_nodeText getText getURL lk n (HF n Hn)) as (q & Hq & _).
    eauto. }
  destruct (mapM_Forall2 (parseSubnode getText getURL lk)
              (flat_map (flat_below getText getURL lk) F)) as (subs & Hsubs & Hsub).
  { apply Forall_lookup_2. intros k fs Hk.
    destruct (Forall2_lookup_r _ _ _ _ _ Hfiled Hk) as (p & _ & Hp & _).
    destruct (parseNode_nodeText getText getURL lk (fs_node fs)
                (node_at_titled F p _ HF Hp)) as (q & Hq & _).
    unfold parseSubnode. rewrite Hq. cbn [mbind result_bind]. eauto. }
  exists pns, subs. split; [exact Hnodes|]. split; [exact Hsub|].
  unfold parseMap. fold F. rewrite Hpns. cbn [mbind result_bind].
  rewrite (getSubnodes_pure getText getURL lk F HF). cbn [mbind result_bind].
  rewrite Hsubs. reflexivity.
Qed.

(** A tree with a node without a title makes [getSubnodesR] throw. *)
Lemma getSubnodesR_each_untitled (lk : gmap jsstring jsstring) (n : RawNode value) :
  titled n = false ->
  forall parent, getSubnodesR_each getText getURL lk parent n = Throw TypeError.
Proof.
  induction n as [t nt loc i st children IH] using RawNode_forall_ind.
  intros Ht parent. rewrite getSubnodesR_each_eq.
  destruct (result_cases (parseNode getText getURL lk (mkRawNode t nt loc i st children)))
    as [[p Hp]|Hp]; rewrite Hp; [|reflexivity].
  cbn [mbind result_bind nodes].
  rewrite titled_eq in Ht. cbn [title nodes] in Ht.
  apply andb_false_iff in Ht as [Ht|Ht].
  - apply bool_decide_eq_false in Ht.
    rewrite (parseNode_untitled getText getURL lk) in Hp; [discriminate|].
    cbn [title]. destruct t; [exfalso; apply Ht; discriminate|reflexivity].
  - destruct (forallb_false_In _ _ Ht) as (c & Hc & Hcf).
    unfold getSubnodesR.
    rewrite (forEachPush_throw _ children c Hc); [reflexivity|].
    rewrite List.Forall_forall in IH. apply IH; assumption.
Qed.

Lemma getSubnodes_untitled (lk : gmap jsstring jsstring) (F : list (RawNode value)) :
  forallb titled F = false -> getSubnodes getText getURL lk F = Throw TypeError.
Proof.
  intros H. destruct (forallb_false_In _ _ H) as (n & Hn & Hnf).
  unfold getSubnodes. apply (forEachPush_throw _ F n Hn).
  destruct (result_cases (parseNode getText getURL lk n)) as [[p Hp]|Hp];
    rewrite Hp; [|reflexivity].
  cbn [mbind result_bind].
  rewrite titled_eq in Hnf. apply andb_false_iff in Hnf as [Ht|Ht].
  - apply bool_decide_eq_false in Ht.
    rewrite (parseNode_untitled getText getURL lk) in Hp; [discriminate|].
    destruct (title n); [exfalso; apply Ht; discriminate|reflexivity].
  - destruct (forallb_false_In _ _ Ht) as (c & Hc & Hcf).
    unfold getSubnodesR. apply (forEachPush_throw _ (nodes n) c Hc).
    apply getSubnodesR_each_untitled, Hcf.
Qed.

(** X14: a single node without a title anywhere in the tree of a map, be
    it a leaf among the subnodes, makes the second pass fail on the whole
    map with a [TypeError], whatever its other nodes and its connections. *)
Theorem parseMap_untitled_throws (lk : gmap jsstring jsstring) (map : RawMap value) :
  forallb titled (map_nodes map) = false ->
  parseMap getText getURL lk map = Throw TypeError.
Proof.
  intros H. unfold parseMap.
  destruct (result_cases (mapM (parseNode getText getURL lk) (map_nodes map)))
    as [[pns Hp]|Hp]; rewrite Hp; [|reflexivity].
  cbn [mbind result_bind]. rewrite (getSubnodes_untitled lk _ H). reflexivity.
Qed.

(** The table of a map under an id that one node only carries, and under an
    id that none carries. *)
Lemma nodesLookup_fold_None (l : list (RawNode value * ParsedNode value))
    (m : gmap jsstring jsstring) (k : jsstring) :
  m !! k = None -> Forall (fun np => id (fst np) <> k) l ->
  fold_left (fun lk np => <[id (fst np) := text (snd np)]> lk) l m !! k = None.
Proof.
  revert m. induction l as [|np l IH]; intros m Hm Hall; [exact Hm|].
  apply Forall_cons_1 in Hall as [Hnp Hall]. cbn [fold_left].
  apply IH; [|exact Hall]. rewrite lookup_insert_ne by exact Hnp. exact Hm.
Qed.

Lemma nodesLookup_fold_keep (l : list (RawNode value * ParsedNode value))
    (m : gmap jsstring jsstring) (k v : jsstring) :
  m !! k = Some v -> Forall (fun np => id (fst np) <> k) l ->
  fold_left (fun lk np => <[id (fst np) := text (snd np)]> lk) l m !! k = Some v.
Proof.
  revert m. induction l as [|np l IH]; intros m Hm Hall; [exact Hm|].
  apply Forall_cons_1 in Hall as [Hnp Hall]. cbn [fold_left].
  apply IH; [|exact Hall]. rewrite lookup_insert_ne by exact Hnp. exact Hm.
Qed.

Lemma combine_ids (raw : list (RawNode value)) (parsed : list (ParsedNode value))
    (k : jsstring) :
  Forall (fun n => id n <> k) raw ->
  Forall (fun np => id (fst np) <> k) (combine raw parsed).
Proof.
  intros H. apply List.Forall_forall. intros [n p] Hin.
  apply in_combine_l in Hin. rewrite List.Forall_forall in H. apply H, Hin.
Qed.

Lemma combine_app_same_length {A B : Type} (a c : list A) (b d : list B) :
  length a = length b ->
  combine (a ++ c) (b ++ d) = combine a b ++ combine c d.
Proof.
  revert b. induction a as [|x a IH]; intros [|y b] H; try discriminate.
  - reflexivity.
  - cbn [app combine]. f_equal. apply IH. simpl in H. lia.
Qed.

Lemma nodesLookup_of_unique (raw : list (RawNode value))
    (parsed : list (ParsedNode value)) (i : nat) (n : RawNode value)
    (p : ParsedNode value) :
  length raw = length parsed ->
  NoDup (List.map id raw) ->
  raw !! i = Some n -> parsed !! i = Some p ->
  nodesLookup_of raw parsed !! id n = Some (text p).
Proof.
  intros Hlen Hnd Hn Hp. unfold nodesLookup_of.
  rewrite <- (take_drop_middle raw i n Hn), <- (take_drop_middle parsed i p Hp).
  assert (Hl : length (take i raw) = length (take i parsed)).
  { rewrite !length_take. lia. }
  rewrite combine_app_same_length by exact Hl. cbn [combine].
  rewrite fold_left_app. cbn [fold_left fst snd].
  apply nodesLookup_fold_keep; [apply lookup_insert_eq|].
  apply combine_ids.
  rewrite <- (take_drop_middle raw i n Hn) in Hnd.
  rewrite map_app in Hnd. cbn [List.map] in Hnd.
  apply NoDup_app in Hnd as (_ & _ & Hnd).
  apply NoDup_cons in Hnd as [Hnotin _].
  apply List.Forall_forall. intros n' Hn' E. apply Hnotin.
  apply list_elem_of_In, in_map_iff. exists n'. auto.
Qed.

(** X15: in the parsed map the connections come in the order of the raw
    ones, and the end of a connection is resolved through the top-level
    nodes only: it is the text of the parsed top-level node that carries the
    id (the ids of the top-level nodes being distinct), and [undefined] when
    no top-level node carries it, be it the id of a subnode. The ids, of the
    nodes and of the ends, are supposed not to be names of members of
    [Object.prototype], for which the table of the script is not its
    entries. *)
Theorem parseMap_connections (lk : gmap jsstring jsstring) (map : RawMap value) :
  forallb titled (map_nodes map) = true ->
  NoDup (List.map id (map_nodes map)) ->
  Forall (fun n => ~ In (id n) objectPrototypeMembers) (map_nodes map) ->
  Forall (fun conn => ~ In (startNodeID conn) objectPrototypeMembers
                      /\ ~ In (endNodeID conn) objectPrototypeMembers)
         (map_connections map) ->
  exists pm, parseMap getText getURL lk map = Ok pm
    /\ length (pm_connections pm) = length (map_connections map)
    /\ forall k conn, map_connections map !! k = Some conn ->
         exists pc, pm_connections pm !! k = Some pc
           /\ (forall i n, map_nodes map !! i = Some n -> id n = startNodeID conn ->
                 exists p, pm_nodes pm !! i = Some p /\ source pc = Some (text p))
           /\ (forall i n, map_nodes map !! i = Some n -> id n = endNodeID conn ->
                 exists p, pm_nodes pm !! i = Some p /\ target pc = Some (text p))
           /\ (Forall (fun n => id n <> startNodeID conn) (map_nodes map) ->
               source pc = None)
           /\ (Forall (fun n => id n <> endNodeID conn) (map_nodes map) ->
               target pc = None).
Proof.
  intros HF Hnd _ _.
  destruct (parseMap_titled lk map HF) as (pns & subs & Hnodes & _ & Hpm).
  eexists. split; [exact Hpm|]. cbn [pm_connections pm_nodes].
  split; [apply length_map|].
  intros k conn Hk.
  exists (parseConn getText conn (nodesLookup_of (map_nodes map) pns)).
  split.
  { change (List.map ?f ?l) with (f <$> l). rewrite list_lookup_fmap, Hk. reflexivity. }
  assert (Hsrc : source (parseConn getText conn (nodesLookup_of (map_nodes map) pns))
                 = nodesLookup_of (map_nodes map) pns !! startNodeID conn).
  { unfold parseConn. destruct (conn_title conn) as [ct|];
      [destruct (truthy (rt_text ct))|]; reflexivity. }
  assert (Htgt : target (parseConn getText conn (nodesLookup_of (map_nodes map) pns))
                 = nodesLookup_of (map_nodes map) pns !! endNodeID conn).
  { unfold parseConn. destruct (conn_title conn) as [ct|];
      [destruct (truthy (rt_text ct))|]; reflexivity. }
  rewrite Hsrc, Htgt.
  pose proof (Forall2_length _ _ _ Hnodes) as Hlen.
  repeat split.
  - intros i n Hn Hid.
    destruct (Forall2_lookup_l _ _ _ _ _ Hnodes Hn) as (p & Hp & _).
    exists p. split; [exact Hp|]. rewrite <- Hid.
    apply (nodesLookup_of_unique _ _ i); assumption.
  - intros i n Hn Hid.
    destruct (Forall2_lookup_l _ _ _ _ _ Hnodes Hn) as (p & Hp & _).
    exists p. split; [exact Hp|]. rewrite <- Hid.
    apply (nodesLookup_of_unique _ _ i); assumption.
  - intros Hno. unfold nodesLookup_of.
    apply nodesLookup_fold_None; [apply lookup_empty|apply combine_ids, Hno].
  - intros Hno. unfold nodesLookup_of.
    apply nodesLookup_fold_None; [apply lookup_empty|apply combine_ids, Hno].
Qed.

(** The text under which a node files its children does not depend on the
    link table. *)
Lemma parseNode_two_tables (lk1 lk2 : gmap jsstring jsstring) (node : RawNode value) :
  (parseNode getText getURL lk1 node = Throw TypeError
   /\ parseNode getText getURL lk2 node = Throw TypeError)
  \/ exists p1 p2,
       parseNode getText getURL lk1 node = Ok p1
       /\ parseNode getText getURL lk2 node = Ok p2
       /\ text p1 = text p2 /\ category p1 = category p2
       /\ pn_note p1 = pn_note p2 /\ fx p1 = fx p2 /\ fy p1 = fy p2.
Proof.
  destruct (title node) as [t|] eqn:Ht.
  - right.
    destruct (parseNode_titled getText getURL lk1 node t Ht)
      as (p1 & Hp1 & T1 & C1 & N1 & _ & X1 & Y1).
    destruct (parseNode_titled getText getURL lk2 node t Ht)
      as (p2 & Hp2 & T2 & C2 & N2 & _ & X2 & Y2).
    exists p1, p2. repeat split; congruence.
  - left. split; apply parseNode_untitled, Ht.
Qed.

Lemma nodeText_two_tables (lk1 lk2 : gmap jsstring jsstring) (node : RawNode value) :
  nodeText getText getURL lk1 node = nodeText getText getURL lk2 node.
Proof.
  unfold nodeText.
  destruct (parseNode_two_tables lk1 lk2 node)
    as [[E1 E2]|(p1 & p2 & E1 & E2 & T & _)]; rewrite E1, E2; [reflexivity|exact T].
Qed.

Lemma flat_each_two_tables (lk1 lk2 : gmap jsstring jsstring) (n : RawNode value) :
  forall parent,
    flat_each getText getURL lk1 parent n = flat_each getText getURL lk2 parent n.
Proof.
  induction n as [t nt loc i st children IH] using RawNode_forall_ind.
  intros parent. rewrite !flat_each_eq. f_equal. unfold flat_below.
  rewrite (nodeText_two_tables lk1 lk2). cbn [nodes].
  generalize (nodeText getText getURL lk2 (mkRawNode t nt loc i st children)).
  intros q. induction IH as [|c l Hc _ IHl]; [reflexivity|].
  cbn [flat_map]. rewrite Hc, IHl. reflexivity.
Qed.

(** X18: the link table bears on the URLs only: with two tables a node
    throws with both or is parsed with both, into records that differ at
    most by their [url]; and the flattening of a tree, with the parent texts
    it files the subnodes under, is the same. *)
Theorem link_table_bears_on_url_only (lk1 lk2 : gmap jsstring jsstring)
    (node : RawNode value) (nodes0 : list (RawNode value)) :
  ((parseNode getText getURL lk1 node = Throw TypeError
    /\ parseNode getText getURL lk2 node = Throw TypeError)
   \/ exists p1 p2,
        parseNode getText getURL lk1 node = Ok p1
        /\ parseNode getText getURL lk2 node = Ok p2
        /\ text p1 = text p2 /\ category p1 = category p2
        /\ pn_note p1 = pn_note p2 /\ fx p1 = fx p2 /\ fy p1 = fy p2)
  /\ getSubnodes getText getURL lk1 nodes0 = getSubnodes getText getURL lk2 nodes0.
Proof.
  split; [apply parseNode_two_tables|].
  destruct (forallb titled nodes0) eqn:E.
  - rewrite !(getSubnodes_pure getText getURL) by exact E. f_equal.
    induction nodes0 as [|n l IH]; [reflexivity|].
    cbn [flat_map]. cbn [forallb] in E. apply andb_prop in E as [_ E].
    rewrite (IH E). f_equal. unfold flat_below.
    rewrite (nodeText_two_tables lk1 lk2).
    generalize (nodeText getText getURL lk2 n). intros q.
    induction (nodes n) as [|c cs IHc]; [reflexivity|].
    cbn [flat_map]. rewrite IHc, (flat_each_two_tables lk1 lk2). reflexivity.
  - rewrite !getSubnodes_untitled by exact E. reflexivity.
Qed.

End ParserFurther.

(** ** Directories *)

Lemma existsSync_true (fs : gset FS.path) (p : FS.path) :
  FS.existsSync fs p = true <-> p = [] \/ p ∈ fs.
Proof. unfold FS.existsSync. apply bool_decide_eq_true. Qed.

Lemma existsSync_false (fs : gset FS.path) (p : FS.path) :
  FS.existsSync fs p = false <-> p <> [] /\ p ∉ fs.
Proof.
  unfold FS.existsSync. rewrite bool_decide_eq_false. tauto.
Qed.

Lemma existsSync_mono (fs fs' : gset FS.path) (p : FS.path) :
  fs ⊆ fs' -> FS.existsSync fs p = true -> FS.existsSync fs' p = true.
Proof.
  rewrite !existsSync_true, elem_of_subseteq.
  intros Hsub [H|H]; [left; exact H|right; apply Hsub, H].
Qed.

Lemma mkdirs_eq (p : FS.path) (fs : gset FS.path) :
  FS.mkdirs p fs =
  match (if FS.existsSync fs (FS.dirname p) then FS.Done fs
         else match p with
              | _ :: parent => FS.mkdirs parent fs
              | [] => FS.Done fs
              end) with
  | FS.Done fs' => FS.mkdirSync fs' p
  | FS.Fail e => FS.Fail e
  end.
Proof. destruct p; reflexivity. Qed.

(** What [mkdirs] does to a directory that does not exist. *)
Lemma mkdirs_missing_spec (p : FS.path) :
  forall fs, FS.existsSync fs p = false ->
    exists fs', FS.mkdirs p fs = FS.Done fs'
      /\ FS.existsSync fs' p = true
      /\ fs ⊆ fs'
      /\ (forall q, q ∈ fs' -> q ∈ fs \/ (q `suffix_of` p /\ FS.existsSync fs q = false))
      /\ (FS.closed fs -> FS.closed fs').
Proof.
  induction p as [|seg parent IH]; intros fs Hp.
  - apply existsSync_false in Hp. tauto.
  - rewrite mkdirs_eq. cbn [FS.dirname tail].
    destruct (FS.existsSync fs parent) eqn:Hpar.
    + unfold FS.mkdirSync. rewrite Hp. cbn [FS.dirname tail]. rewrite Hpar.
      eexists. split; [reflexivity|]. split; [|split; [|split]].
      * apply existsSync_true. right. set_solver.
      * set_solver.
      * intros q Hq. apply elem_of_union in Hq as [Hq|Hq]; [|auto].
        apply elem_of_singleton in Hq. subst q. right. split; [reflexivity|exact Hp].
      * intros Hc q Hq. apply elem_of_union in Hq as [Hq|Hq].
        -- apply elem_of_singleton in Hq. subst q. cbn [FS.dirname tail].
           apply (existsSync_mono fs); [set_solver|exact Hpar].
        -- apply (existsSync_mono fs); [set_solver|apply Hc, Hq].
    + destruct (IH fs Hpar) as (fs1 & Hmk & Hex & Hsub & Hnew & Hcl).
      rewrite Hmk.
      assert (Hp1 : FS.existsSync fs1 (seg :: parent) = false).
      { apply existsSync_false. split; [discriminate|]. intros Hin.
        apply existsSync_false in Hp as [_ Hp].
        destruct (Hnew _ Hin) as [Hold|[Hsuf _]]; [exact (Hp Hold)|].
        apply suffix_length in Hsuf. cbn [length] in Hsuf. lia. }
      unfold FS.mkdirSync. rewrite Hp1. cbn [FS.dirname tail]. rewrite Hex.
      eexists. split; [reflexivity|]. split; [|split; [|split]].
      * apply existsSync_true. right. set_solver.
      * set_solver.
      * intros q Hq. apply elem_of_union in Hq as [Hq|Hq].
        -- apply elem_of_singleton in Hq. subst q. right. split; [reflexivity|exact Hp].
        -- destruct (Hnew q Hq) as [Hold|[Hsuf Hne]]; [auto|].
           right. split; [|exact Hne]. apply suffix_cons_r, Hsuf.
      * intros Hc q Hq. apply elem_of_union in Hq as [Hq|Hq].
        -- apply elem_of_singleton in Hq. subst q. cbn [FS.dirname tail].
           apply (existsSync_mono fs1); [set_solver|exact Hex].
        -- apply (existsSync_mono fs1); [set_solver|apply (Hcl Hc), Hq].
Qed.

(** X16: on a directory that does not exist, [mkdirs] does not throw: it
    creates the directory, and besides it only those of the directories
    above it that did not exist; nothing is removed, and a state in which
    every directory has its parent stays so. *)
Theorem mkdirs_missing (p : FS.path) (fs : gset FS.path) :
  FS.existsSync fs p = false ->
  exists fs', FS.mkdirs p fs = FS.Done fs'
    /\ FS.existsSync fs' p = true
    /\ fs ⊆ fs'
    /\ (forall q, q ∈ fs' -> q ∈ fs \/ (q `suffix_of` p /\ FS.existsSync fs q = false))
    /\ (FS.closed fs -> FS.closed fs'
        /\ forall q, q `suffix_of` p -> FS.existsSync fs' q = true).
Proof.
  intros Hp.
  destruct (mkdirs_missing_spec p fs Hp) as (fs' & Hmk & Hex & Hsub & Hnew & Hcl).
  exists fs'. repeat (split; [assumption|]).
  intros Hc. split; [apply Hcl, Hc|].
  specialize (Hcl Hc). clear Hmk Hsub Hnew Hp Hc.
  induction p as [|seg parent IH]; intros q Hq.
  - apply suffix_nil_inv in Hq. subst q. apply existsSync_true. auto.
  - destruct q as [|x q]; [apply existsSync_true; auto|].
    apply suffix_cons_inv in Hq as [E|Hq]; [rewrite E; exact Hex|].
    apply IH; [|exact Hq].
    apply existsSync_true in Hex as [Hex|Hex]; [discriminate|].
    exact (Hcl _ Hex).
Qed.

Lemma mkdirs_missing_witness :
  FS.existsSync {[ [js "out"] ]} [js "physics"; js "maps"; js "out"] = false
  /\ exists fs',
       FS.mkdirs [js "physics"; js "maps"; js "out"] {[ [js "out"] ]} = FS.Done fs'
       /\ FS.existsSync fs' [js "physics"; js "maps"; js "out"] = true
       /\ FS.existsSync fs' [js "maps"; js "out"] = true.
Proof.
  assert (H : FS.existsSync {[ [js "out"] ]} [js "physics"; js "maps"; js "out"] = false).
  { apply existsSync_false. split; [discriminate|].
    intros Hin. apply elem_of_singleton in Hin. discriminate. }
  split; [exact H|].
  destruct (mkdirs_missing [js "physics"; js "maps"; js "out"] {[ [js "out"] ]} H)
    as (fs' & Hmk & Hex & _ & _ & Hcl).
  exists fs'. split; [exact Hmk|]. split; [exact Hex|].
  apply Hcl.
  - intros q Hq. apply elem_of_singleton in Hq. subst q. reflexivity.
  - exists [js "physics"]. reflexivity.
Defined.

(** X17: on a directory that exists [mkdirs] throws, with the [EEXIST] of
    [fs.mkdirSync]: it is not quite [mkdir -p]. The script calls it under
    the test [!fs.existsSync(outputPath)], and the test with the call never
    throw and leave the directory in place. *)
Theorem mkdirs_existing (p : FS.path) (fs : gset FS.path) :
  (FS.existsSync fs p = true -> FS.mkdirs p fs = FS.Fail FS.EEXIST)
  /\ exists fs', FS.ensureDir p fs = FS.Done fs'
                 /\ FS.existsSync fs' p = true /\ fs ⊆ fs'.
Proof.
  split.
  - intros Hp. rewrite mkdirs_eq.
    assert (Hend : forall fs1, fs ⊆ fs1 -> FS.mkdirSync fs1 p = FS.Fail FS.EEXIST).
    { intros fs1 Hsub. unfold FS.mkdirSync.
      rewrite (existsSync_mono fs fs1 p Hsub Hp). reflexivity. }
    destruct (FS.existsSync fs (FS.dirname p)) eqn:Hpar; [apply Hend; set_solver|].
    destruct p as [|seg parent]; [apply Hend; set_solver|].
    cbn [FS.dirname tail] in Hpar.
    destruct (mkdirs_missing_spec parent fs Hpar) as (fs1 & Hmk & _ & Hsub & _).
    rewrite Hmk. apply Hend, Hsub.
  - unfold FS.ensureDir. destruct (FS.existsSync fs p) eqn:Hp.
    + exists fs. split; [reflexivity|]. split; [exact Hp|set_solver].
    + destruct (mkdirs_missing_spec p fs Hp) as (fs' & Hmk & Hex & Hsub & _).
      exists fs'. auto.
Qed.

(** ** The further properties at sample inputs *)

Lemma parseNode_url_witness :
  title (Examples.leaf Examples.internalLink)
  = Some {| rt_text := Examples.internalLink |}
  /\ exists p,
       parseNode Regex.getText Regex.getURL
         {[ Examples.token40 := js "/physics" ]}
         (Examples.leaf Examples.internalLink) = Ok p
       /\ url p = Some (js "/physics").
Proof.
  split; [reflexivity|].
  destruct (parseNode_url Regex.getText Regex.getURL
              {[ Examples.token40 := js "/physics" ]}
              (Examples.leaf Examples.internalLink) _ eq_refl)
    as (p & Hp & _ & _ & H).
  exists p. split; [exact Hp|].
  rewrite (H (js "https://learn-anything.xyz") Examples.token40 []);
    [apply lookup_singleton_eq|reflexivity..].
Defined.

Lemma parseNode_text_trimmed_witness :
  title (Examples.leaf ([0xD83D; 0xDC40] ++ js "  Intro to X "))
  = Some {| rt_text := [0xD83D; 0xDC40] ++ js "  Intro to X " |}
  /\ Emojis.hasSurrogatePair
       (Regex.getText ([0xD83D; 0xDC40] ++ js "  Intro to X "))
  /\ exists p,
       parseNode Regex.getText Regex.getURL ∅
         (Examples.leaf ([0xD83D; 0xDC40] ++ js "  Intro to X ")) = Ok p
       /\ text p = js "Intro to X".
Proof.
  assert (Hpair : Emojis.hasSurrogatePair
                    (Regex.getText ([0xD83D; 0xDC40] ++ js "  Intro to X "))).
  { exists [], 0xD83D, 0xDC40, (js "  Intro to X "). repeat split. }
  split; [reflexivity|]. split; [exact Hpair|].
  destruct (parseNode_text_trimmed Regex.getText Regex.getURL ∅
              (Examples.leaf ([0xD83D; 0xDC40] ++ js "  Intro to X ")) _
              eq_refl Hpair) as (p & Hp & Htext & _).
  exists p. split; [exact Hp|]. rewrite Htext. reflexivity.
Defined.

Lemma pass1_last_wins_witness :
  Forall (fun g : RawMap Z * jsstring =>
            token (fst g) <> token (fst (Examples.doc Examples.token40, js "/in/b.json")))
         []
  /\ pass1 (js "/in")
       ([(Examples.doc Examples.token40, js "/in/a.json")]
        ++ (Examples.doc Examples.token40, js "/in/b.json") :: [])
     !! Examples.token40 = Some (js "/b").
Proof.
  split; [constructor|].
  apply (pass1_last_wins (js "/in")
           [(Examples.doc Examples.token40, js "/in/a.json")] []
           (Examples.doc Examples.token40, js "/in/b.json")).
  constructor.
Defined.

Lemma relativeFilePath_learn_anything_witness :
  js "/physics" <> []
  /\ includes (js ".json") ((sentinel ++ js "/physics") ++ removelast (js ".json")) = false
  /\ includes sentinel (js "/physics") = false
  /\ relativeFilePath (js "/in") (js "/in" ++ (sentinel ++ js "/physics") ++ js ".json")
     = js "/physics".
Proof.
  split; [discriminate|]. split; [reflexivity|]. split; [reflexivity|].
  apply (relativeFilePath_learn_anything (js "/in") (js "/physics"));
    first [discriminate | reflexivity].
Defined.

Lemma link_resolution_witness :
  In (Examples.doc Examples.token40, js "/in/learn-anything/physics.json")
     [(Examples.doc Examples.token40, js "/in/learn-anything/physics.json")]
  /\ title (Examples.leaf Examples.internalLink)
     = Some {| rt_text := Examples.internalLink |}
  /\ matchInternalURL (Regex.getURL Examples.internalLink)
     = Some (token (Examples.doc Examples.token40))
  /\ exists p,
       parseNode Regex.getText Regex.getURL
         (pass1 (js "/in")
            [(Examples.doc Examples.token40, js "/in/learn-anything/physics.json")])
         (Examples.leaf Examples.internalLink) = Ok p
       /\ url p = Some (js "/physics").
Proof.
  split; [left; reflexivity|]. split; [reflexivity|]. split; [reflexivity|].
  apply (link_resolution Regex.getText Regex.getURL (js "/in")
           [(Examples.doc Examples.token40, js "/in/learn-anything/physics.json")]
           (Examples.doc Examples.token40) (js "/in/learn-anything/physics.json")
           (Examples.leaf Examples.internalLink)
           {| rt_text := Examples.internalLink |}).
  - left. reflexivity.
  - intros f [<-|[]] _. reflexivity.
  - reflexivity.
  - reflexivity.
Defined.

Lemma parseMap_connections_witness :
  forallb titled
    [mkRawNode (Some {| rt_text := js "a" |}) None Examples.origin (js "n1") None
       [mkRawNode (Some {| rt_text := js "c" |}) None Examples.origin (js "n3") None []];
     mkRawNode (Some {| rt_text := js "b" |}) None Examples.origin (js "n2") None []]
  = true
  /\ NoDup [js "n1"; js "n2"]
  /\ Forall (fun i => ~ In i objectPrototypeMembers) [js "n1"; js "n2"; js "n3"]
  /\ exists pm,
       parseMap Regex.getText Regex.getURL ∅
         {| map_title := 0; token := Examples.token40;
            map_nodes :=
              [mkRawNode (Some {| rt_text := js "a" |}) None Examples.origin (js "n1") None
                 [mkRawNode (Some {| rt_text := js "c" |}) None Examples.origin (js "n3")
                    None []];
               mkRawNode (Some {| rt_text := js "b" |}) None Examples.origin (js "n2")
                 None []];
            map_connections :=
              [Examples.conn None;
               {| startNodeID := js "n2"; endNodeID := js "n3"; conn_title := None;
                  wayPointOffset := Examples.origin |}] |} = Ok pm
       /\ List.map source (pm_connections pm) = [Some (js "a"); Some (js "b")]
       /\ List.map target (pm_connections pm) = [Some (js "b"); None].
Proof.
  assert (Hnd : NoDup [js "n1"; js "n2"]).
  { apply (bool_decide_unpack _). vm_compute. reflexivity. }
  assert (Hids : Forall (fun i => ~ In i objectPrototypeMembers)
                        [js "n1"; js "n2"; js "n3"]).
  { repeat constructor; intros H;
      repeat (destruct H as [H|H]; [discriminate H|]); exact H. }
  split; [reflexivity|]. split; [exact Hnd|]. split; [exact Hids|].
  destruct (parseMap_connections Regex.getText Regex.getURL ∅
              {| map_title := 0; token := Examples.token40;
                 map_nodes :=
                   [mkRawNode (Some {| rt_text := js "a" |}) None Examples.origin
                      (js "n1") None
                      [mkRawNode (Some {| rt_text := js "c" |}) None Examples.origin
                         (js "n3") None []];
                    mkRawNode (Some {| rt_text := js "b" |}) None Examples.origin
                      (js "n2") None []];
                 map_connections :=
                   [Examples.conn None;
                    {| startNodeID := js "n2"; endNodeID := js "n3";
                       conn_title := None; wayPointOffset := Examples.origin |}] |}
              eq_refl Hnd) as (pm & Hpm & _).
  - apply Forall_cons_1 in Hids as [H1 Hids].
    apply Forall_cons_1 in Hids as [H2 _].
    repeat constructor; assumption.
  - apply Forall_cons_1 in Hids as [H1 Hids].
    apply Forall_cons_1 in Hids as [H2 Hids].
    apply Forall_cons_1 in Hids as [H3 _].
    repeat constructor; assumption.
  - exists pm. split; [exact Hpm|].
    injection Hpm as <-. split; vm_compute; reflexivity.
Defined.

Lemma parseMap_untitled_throws_witness :
  forallb titled
    (map_nodes
       {| map_title := 0; token := Examples.token40;
          map_nodes :=
            [Examples.tree (js "a")
               [Examples.tree (js "b") [Examples.untitled]; Examples.leaf (js "d")]];
          map_connections := [Examples.conn None] |}) = false
  /\ parseMap Regex.getText Regex.getURL ∅
       {| map_title := 0; token := Examples.token40;
          map_nodes :=
            [Examples.tree (js "a")
               [Examples.tree (js "b") [Examples.untitled]; Examples.leaf (js "d")]];
          map_connections := [Examples.conn None] |} = Throw TypeError.
Proof.
  split; [reflexivity|].
  apply (parseMap_untitled_throws Regex.getText Regex.getURL ∅
           {| map_title := 0; token := Examples.token40;
              map_nodes :=
                [Examples.tree (js "a")
                   [Examples.tree (js "b") [Examples.untitled];
                    Examples.leaf (js "d")]];
              map_connections := [Examples.conn None] |}).
  reflexivity.
Defined.
